(** * Eliot action contexts across generator suspensions

    A shallow embedding of [src/allmydata/util/eliotutil.py]: the
    per-generator context registry [_GeneratorContext] and the trampoline
    [eliot_friendly_generator_function], followed by the properties the
    specification states about them.

    Python generators are embedded as state machines: a generator object is
    an identity (a [handle]) together with the state of its frame, and
    [send]/[throw] are one step function taking the resumption and the
    process state and giving back what the step produced, the next frame
    state and the new process state. *)

From Stdlib Require Import String Ascii.
From stdpp Require Import gmap list strings.

Open Scope string_scope.

(** ** Values, exceptions, the two resumption channels *)

(** Exceptions other than [StopIteration]; [StopIteration] is the
    [Completed] outcome below and never travels as an [exn]. *)
Inductive exn : Type :=
| KeyError
| TypeError
| Exc (name : string).

(** The Python values that travel through the trampoline.  [VExcInfo e]
    is the triple [exc_info()] returns while [e] is being handled. *)
Inductive pyval : Type :=
| VNone
| VInt (n : Z)
| VStr (s : string)
| VExcInfo (e : exn).

(** [gen.send(v)] and [gen.throw(e)]. *)
Inductive resume : Type :=
| Send (v : pyval)
| Throw (e : exn).

(** What one resumption of a generator produces: a yielded value,
    [StopIteration] with its payload, or any other exception. *)
Inductive outcome : Type :=
| Yielded (v : pyval)
| Completed (r : pyval)
| Raised (e : exn).

Inductive result (A : Type) : Type :=
| Ok (a : A)
| Err (e : exn).
Arguments Ok {A} a.
Arguments Err {A} e.

(** ** Process state *)

(** Identity of a generator object. *)
Definition handle : Type := nat.

(** A context stack: the action markers, outermost first. *)
Definition Stack : Type := list string.

(** A message as the tracing system received it: its [message_type] and
    the context stack it was attributed to. *)
Definition Event : Type := (string * Stack)%type.

(** The state the module works on: the fields of the singleton
    [_the_generator_context] ([_contexts], [_current_generator]), the
    ambient stack of Eliot's execution context [_context], the messages
    emitted so far, and the next free object identity.

    [_contexts] is a [WeakKeyDictionary] in the code: the runtime drops
    the entry of a generator once nothing else refers to it.  Object
    lifetime is not part of this state, so the map here holds what the
    code has stored and never loses an entry by itself; nothing below
    states that an entry is still there for a generator that may be
    gone. *)
Record World : Type := mkWorld {
  _contexts : gmap handle Stack;
  _current_generator : option handle;
  main_stack : Stack;
  messages : list Event;
  next_handle : handle;
}.

(** [_GeneratorContext.__init__], around an execution context whose
    ambient stack is [ambient]. *)
Definition new_world (ambient : Stack) : World :=
  {| _contexts := ∅;
     _current_generator := None;
     main_stack := ambient;
     messages := [];
     next_handle := 0 |}.

Definition set_contexts (m : gmap handle Stack) (w : World) : World :=
  {| _contexts := m;
     _current_generator := _current_generator w;
     main_stack := main_stack w;
     messages := messages w;
     next_handle := next_handle w |}.

Definition set_current_generator (g : option handle) (w : World) : World :=
  {| _contexts := _contexts w;
     _current_generator := g;
     main_stack := main_stack w;
     messages := messages w;
     next_handle := next_handle w |}.

(** The code outside this module replacing the ambient stack. *)
Definition set_main_stack (s : Stack) (w : World) : World :=
  {| _contexts := _contexts w;
     _current_generator := _current_generator w;
     main_stack := s;
     messages := messages w;
     next_handle := next_handle w |}.

Definition add_message (ev : Event) (w : World) : World :=
  {| _contexts := _contexts w;
     _current_generator := _current_generator w;
     main_stack := main_stack w;
     messages := messages w ++ [ev];
     next_handle := next_handle w |}.

(** A new object: its identity is the next free one. *)
Definition new_object (w : World) : handle * World :=
  (next_handle w,
   {| _contexts := _contexts w;
      _current_generator := _current_generator w;
      main_stack := main_stack w;
      messages := messages w;
      next_handle := S (next_handle w) |}).

(** ** [_GeneratorContext] *)

(** [get_stack]: [None] when no generator is active, otherwise the
    registered stack of the active one; the dictionary lookup raises
    [KeyError] when there is none. *)
Definition get_stack (self : World) : result (option Stack) :=
  match _current_generator self with
  | None => Ok None
  | Some g =>
      match _contexts self !! g with
      | Some stack => Ok (Some stack)
      | None => Err KeyError
      end
  end.

(** Modelled from the spec: [_get_stack] of Eliot's execution context
    (ContextStackSource.get_current_stack), which is not part of this
    repository.  The provider installed by [use_generator_context] when
    the module is imported is consulted first; a non-null answer
    pre-empts the ambient stack. *)
Definition _get_stack (w : World) : result Stack :=
  match get_stack w with
  | Err e => Err e
  | Ok (Some stack) => Ok stack
  | Ok None => Ok (main_stack w)
  end.

(** [init_stack]: a copy of the current stack, stored under the
    generator.  The assignment replaces whatever was stored before. *)
Definition init_stack (generator : handle) (self : World) : result World :=
  match _get_stack self with
  | Err e => Err e
  | Ok stack => Ok (set_contexts (<[generator := stack]> (_contexts self)) self)
  end.

(** [context]: the context manager, as the statement [with
    self.context(generator): body].  [body] returns its result, normal or
    exceptional, as a value, so the [finally] clause is the assignment
    after it. *)
Definition context {A : Type} (generator : handle)
    (body : World -> A * World) (self : World) : A * World :=
  let previous_generator := _current_generator self in
  let '(a, self') := body (set_current_generator (Some generator) self) in
  (a, set_current_generator previous_generator self').

(** Modelled from the spec: [Message.log] of Eliot, which is not part of
    this repository.  One event is emitted, attributed to the stack that
    is current at the call; the query for that stack can raise. *)
Definition Message_log (message_type : string) (w : World) : result World :=
  match _get_stack w with
  | Err e => Err e
  | Ok stack => Ok (add_message (message_type, stack) w)
  end.

(** ** Generators *)

(** A generator function [original]: calling it gives a generator object
    whose frame is in state [gstart]; [gresume] is [send]/[throw] on that
    object.  The body runs against the process state. *)
Record generator_function : Type := mkGenerator {
  gstate : Type;
  gstart : gstate;
  gresume : gstate -> resume -> World -> outcome * gstate * World;
}.

(** ** [eliot_friendly_generator_function] *)

(** Where the frame of [wrapper] can be between two resumptions: not yet
    started, parked at [value_in = yield value_out] (holding [gen], that
    is its identity and the state of its frame), or finished. *)
Inductive wrapper_state (original : generator_function) : Type :=
| NotStarted
| AtYield (gen : handle) (st : gstate original)
| Finished.
Arguments NotStarted {original}.
Arguments AtYield {original} gen st.
Arguments Finished {original}.

Section Wrapper.
Context (original : generator_function).

(** Lines 142-145: [gen.send(value_in)] if [ok], else
    [gen.throw( *value_in)]. *)
Definition deliver (st : gstate original) (ok : bool) (value_in : pyval)
    (w : World) : outcome * gstate original * World :=
  if ok then gresume original st (Send value_in) w
  else
    match value_in with
    | VExcInfo e => gresume original st (Throw e) w
    | _ => (Raised TypeError, st, w)
    end.

(** Lines 146-154: the generator has been stepped; when that gave a
    value, log the "yielded" message.  An exception leaves the [with]
    statement at once. *)
Definition log_yielded (x : outcome * gstate original * World)
    : (outcome * gstate original) * World :=
  let '(value_out, st', w1) := x in
  match value_out with
  | Yielded v =>
      match Message_log "yielded" w1 with
      | Ok w2 => ((Yielded v, st'), w2)
      | Err e => ((Raised e, st'), w1)
      end
  | _ => ((value_out, st'), w1)
  end.

(** Lines 142-154, the body of the [with] statement. *)
Definition with_body (st : gstate original) (ok : bool) (value_in : pyval)
    (w : World) : (outcome * gstate original) * World :=
  log_yielded (deliver st ok value_in w).

(** Lines 155-164, after the [with] statement: [StopIteration] leaves the
    loop and the wrapper returns, another exception propagates, a value
    is yielded to whoever drives the wrapper. *)
Definition after_with (gen : handle) (x : outcome * gstate original)
    (w : World) : outcome * wrapper_state original * World :=
  match x.1 with
  | Yielded value_out => (Yielded value_out, AtYield gen x.2, w)
  | Completed _ => (Completed VNone, Finished, w)
  | Raised e => (Raised e, Finished, w)
  end.

(** Lines 135-164, one turn of the [while True] loop up to the point
    where the wrapper gives up control. *)
Definition iteration (gen : handle) (st : gstate original) (ok : bool)
    (value_in : pyval) (w : World)
    : outcome * wrapper_state original * World :=
  let '(x, w') := context gen (with_body st ok value_in) w in
  after_with gen x w'.

(** Lines 164-171: what the resumption of [value_in = yield value_out]
    assigns to [ok] and [value_in]. *)
Definition pending (r : resume) : bool * pyval :=
  match r with
  | Send v => (true, v)
  | Throw e => (false, VExcInfo e)
  end.

(** One resumption of the generator [wrapper( *a, **kw)] returned. *)
Definition wrapper_resume (ws : wrapper_state original) (r : resume)
    (w : World) : outcome * wrapper_state original * World :=
  match ws with
  | NotStarted =>
      match r with
      | Throw e => (Raised e, Finished, w)
      | Send VNone =>
          let ok := true in
          let value_in := VNone in
          let '(gen, w1) := new_object w in
          match init_stack gen w1 with
          | Err e => (Raised e, Finished, w1)
          | Ok w2 => iteration gen (gstart original) ok value_in w2
          end
      | Send _ => (Raised TypeError, NotStarted, w)
      end
  | AtYield gen st =>
      let '(ok, value_in) := pending r in
      iteration gen st ok value_in w
  | Finished =>
      match r with
      | Send _ => (Completed VNone, Finished, w)
      | Throw e => (Raised e, Finished, w)
      end
  end.
End Wrapper.

(** The call [wrapper( *a, **kw)] itself.  The function contains [yield],
    so the call runs none of its body: it gives back a generator that has
    not started and leaves the process state alone. *)
Definition wrapper (original : generator_function) (w : World)
    : wrapper_state original * World :=
  (NotStarted, w).

(** The decorated function is a generator function again. *)
Definition eliot_friendly_generator_function (original : generator_function)
    : generator_function :=
  {| gstate := wrapper_state original;
     gstart := NotStarted;
     gresume := wrapper_resume original |}.

(** ** Driving a generator *)

Section Driving.
Context {S : Type}.
Context (resume_fn : S -> resume -> World -> outcome * S * World).

(** Resume with each of [ins] in turn, up to the first resumption that
    does not yield. *)
Fixpoint feed (ins : list resume) (s : S) (w : World)
    : list outcome * S * World :=
  match ins with
  | [] => ([], s, w)
  | r :: ins' =>
      let '(o, s', w') := resume_fn s r w in
      match o with
      | Yielded _ =>
          let '(os, s'', w'') := feed ins' s' w' in (o :: os, s'', w'')
      | _ => ([o], s', w')
      end
  end.

(** The scheduler that sends each yielded value straight back: the
    values yielded within [fuel] resumptions, and how the run ended if
    it did. *)
Fixpoint forward (fuel : nat) (value_in : pyval) (s : S) (w : World)
    : list pyval * option outcome * World :=
  match fuel with
  | O => ([], None, w)
  | Datatypes.S fuel' =>
      let '(o, s', w') := resume_fn s (Send value_in) w in
      match o with
      | Yielded v =>
          let '(vs, fin, w'') := forward fuel' v s' w' in (v :: vs, fin, w'')
      | _ => ([], Some o, w')
      end
  end.
End Driving.

(** What the wrapper reports for an outcome of the generator it drives:
    values and exceptions as they are, [StopIteration] without payload. *)
Definition reported (o : outcome) : outcome :=
  match o with
  | Completed _ => Completed VNone
  | _ => o
  end.

Definition is_yield (o : outcome) : bool :=
  match o with
  | Yielded _ => true
  | _ => false
  end.

(** The number of "yielded" messages among [evs]. *)
Definition count_yielded (evs : list Event) : nat :=
  length (filter (fun ev : Event => ev.1 = "yielded") evs).

(** ** Two generator functions to run the definitions on *)

(** Records "A", yields 1, records "B", yields 2, returns "done". *)
Inductive scenario_pc : Type := AtStart | AfterFirst | AfterSecond | Returned.

Definition record_then (message_type : string) (o : outcome)
    (next : scenario_pc) (w : World) : outcome * scenario_pc * World :=
  match Message_log message_type w with
  | Ok w' => (o, next, w')
  | Err e => (Raised e, Returned, w)
  end.

Definition scenario_resume (pc : scenario_pc) (r : resume) (w : World)
    : outcome * scenario_pc * World :=
  match pc, r with
  | Returned, Send _ => (Completed VNone, Returned, w)
  | _, Throw e => (Raised e, Returned, w)
  | AtStart, Send _ => record_then "A" (Yielded (VInt 1)) AfterFirst w
  | AfterFirst, Send _ => record_then "B" (Yielded (VInt 2)) AfterSecond w
  | AfterSecond, Send _ => (Completed (VStr "done"), Returned, w)
  end.

Definition scenario : generator_function :=
  {| gstate := scenario_pc; gstart := AtStart; gresume := scenario_resume |}.

(** A generator that, on each resumption, records "outer-before", drives
    the decorated [inner] one step, records "outer-after" and yields what
    [inner] gave; it returns when [inner] no longer yields. *)
Definition relay_resume (inner : generator_function)
    (ws : wrapper_state inner) (r : resume) (w : World)
    : outcome * wrapper_state inner * World :=
  match r with
  | Throw e => (Raised e, Finished, w)
  | Send v =>
      match Message_log "outer-before" w with
      | Err e => (Raised e, Finished, w)
      | Ok w1 =>
          let '(o, ws', w2) := wrapper_resume inner ws (Send v) w1 in
          match Message_log "outer-after" w2 with
          | Err e => (Raised e, Finished, w2)
          | Ok w3 =>
              match o with
              | Yielded x => (Yielded x, ws', w3)
              | Completed _ => (Completed VNone, ws', w3)
              | Raised e => (Raised e, ws', w3)
              end
          end
      end
  end.

Definition relay (inner : generator_function) (ws : wrapper_state inner)
    : generator_function :=
  {| gstate := wrapper_state inner; gstart := ws;
     gresume := relay_resume inner |}.

(** ** Conditions on worlds and on generator bodies *)

(** Every registered generator has an identity already given out. *)
Definition handles_allocated (w : World) : Prop :=
  ∀ h, is_Some (_contexts w !! h) → h < next_handle w.

(** The active generator, if any, is registered. *)
Definition slot_registered (w : World) : Prop :=
  ∀ h, _current_generator w = Some h → is_Some (_contexts w !! h).

Definition well_formed (w : World) : Prop :=
  handles_allocated w ∧ slot_registered w.

(** [w'] has the active slot of [w] and every registration of [w]. *)
Definition frame (w w' : World) : Prop :=
  _current_generator w' = _current_generator w ∧
  ∀ h s, _contexts w !! h = Some s → _contexts w' !! h = Some s.

(** A body that uses the registry only through this module: each of its
    steps leaves the active slot as it found it and keeps the existing
    registrations. *)
Definition respects (g : generator_function) : Prop :=
  ∀ st r w, handles_allocated w →
    handles_allocated (gresume g st r w).2 ∧ frame w (gresume g st r w).2.

(** A body whose values do not depend on the process state: what a step
    produces, and the frame state it leaves, are the same in every world
    in which the current stack can be read. *)
Definition context_insensitive (g : generator_function) : Prop :=
  ∀ st r w w', slot_registered w → slot_registered w' →
    (gresume g st r w).1 = (gresume g st r w').1.

(** ** Driving under a changing ambient stack *)

Section Ambient.
Context {S : Type}.
Context (resume_fn : S -> resume -> World -> outcome * S * World).

(** As [feed], with the code outside replacing the ambient stack before
    each resumption. *)
Fixpoint feed_ambient (ins : list (Stack * resume)) (s : S) (w : World)
    : list outcome * S * World :=
  match ins with
  | [] => ([], s, w)
  | (ambient, r) :: ins' =>
      let '(o, s', w') := resume_fn s r (set_main_stack ambient w) in
      match o with
      | Yielded _ =>
          let '(os, s'', w'') := feed_ambient ins' s' w' in
          (o :: os, s'', w'')
      | _ => ([o], s', w')
      end
  end.
End Ambient.

(** ** Destination descriptions: [_DestinationParser] *)

Definition ValueError : exn := Exc "ValueError".
Definition UnicodeDecodeError : exn := Exc "UnicodeDecodeError".
Definition IndexError : exn := Exc "IndexError".

Definition colon : ascii := ":"%char.
Definition equals : ascii := "="%char.
Definition backslash : ascii := "092"%char.

(** A byte below 128. *)
Definition is_ascii (c : ascii) : bool :=
  match c with
  | Ascii _ _ _ _ _ _ _ b7 => negb b7
  end.

(** [s.decode("ascii")] on a byte string: the same characters, or
    [UnicodeDecodeError] when a byte is not below 128. *)
Definition decode_ascii (s : string) : result string :=
  if forallb is_ascii (list_ascii_of_string s) then Ok s
  else Err UnicodeDecodeError.

(** [c in s] for a single character [c]. *)
Fixpoint str_contains (c : ascii) (s : string) : bool :=
  match s with
  | EmptyString => false
  | String c' s' => if Ascii.eqb c' c then true else str_contains c s'
  end.

(** [s.split(sep)] for a single-character separator: never empty. *)
Fixpoint split (sep : ascii) (s : string) : list string :=
  match s with
  | EmptyString => [EmptyString]
  | String c s' =>
      if Ascii.eqb c sep then EmptyString :: split sep s'
      else
        match split sep s' with
        | piece :: pieces => String c piece :: pieces
        | [] => [String c EmptyString]
        end
  end.

(** [s.split(sep, 1)]: cut at the first separator only. *)
Fixpoint split_1 (sep : ascii) (s : string) : list string :=
  match s with
  | EmptyString => [EmptyString]
  | String c s' =>
      if Ascii.eqb c sep then [EmptyString; s']
      else
        match split_1 sep s' with
        | piece :: pieces => String c piece :: pieces
        | [] => [String c EmptyString]
        end
  end.

(** What [dict.get(arg_name, default)] gives back in [_get_arg]: the
    integer default, or the text found. *)
Inductive arg_value : Type :=
| Default (n : Z)
| Given (text : string).

(** [dict(pairs)]: every element must have two items; a later item with
    the same key replaces an earlier one. *)
Fixpoint dict (pairs : list (list string)) (acc : gmap string string)
    : result (gmap string string) :=
  match pairs with
  | [] => Ok acc
  | [k; v] :: pairs' => dict pairs' (<[k := v]> acc)
  | _ :: _ => Err ValueError
  end.

(** [_get_arg], lines 318-326. *)
Definition _get_arg (arg_name : string) (default : Z)
    (arg_list : list string) : result arg_value :=
  match dict (split_1 equals <$> arg_list) ∅ with
  | Err e => Err e
  | Ok d =>
      match d !! arg_name with
      | Some text => Ok (Given text)
      | None => Ok (Default default)
      end
  end.

(** What the parsed description stands for: the file the destination will
    write to, [stdout] or a rotating [LogFile] at [path_name]. *)
Inductive file_source : Type :=
| Stdout
| LogFile (path_name : string) (rotateLength maxRotatedFiles : Z).

Section Parser.
(** The builtin [int] on a text. *)
Context (py_int : string → option Z).

Definition int (v : arg_value) : result Z :=
  match v with
  | Default n => Ok n
  | Given text =>
      match py_int text with
      | Some n => Ok n
      | None => Err ValueError
      end
  end.

(** [_parse_file], lines 328-356. *)
Definition _parse_file (kind arg_text : string) : result file_source :=
  if str_contains backslash arg_text then Err ValueError
  else
    match split colon arg_text with
    | [] => Err IndexError
    | path_name :: arg_list =>
        if String.eqb path_name "-" then Ok Stdout
        else
          match _get_arg "rotate_length" (1024 * 1024 * 1024) arg_list with
          | Err e => Err e
          | Ok a =>
              match int a with
              | Err e => Err e
              | Ok rotate_length =>
                  match _get_arg "max_rotated_files" 10 arg_list with
                  | Err e => Err e
                  | Ok b =>
                      match int b with
                      | Err e => Err e
                      | Ok max_rotated_files =>
                          Ok (LogFile path_name rotate_length
                                max_rotated_files)
                      end
                  end
              end
          end
    end.

(** [getattr(self, name)] for the names [parse] asks for: the only
    attribute of a [_DestinationParser] that starts with [_parse_] is
    [_parse_file]. *)
Definition getattr (name : string)
    : option (string → string → result file_source) :=
  if String.eqb name "_parse_file" then Some _parse_file else None.

(** [parse], lines 305-316. *)
Definition parse (description : string) : result file_source :=
  match decode_ascii description with
  | Err e => Err e
  | Ok description =>
      match split_1 colon description with
      | [kind; args] =>
          match getattr ("_parse_" +:+ kind) with
          | None => Err ValueError
          | Some parser => parser kind args
          end
      | _ => Err ValueError
      end
  end.

(** [opt_eliot_destination], lines 208-214, on the options dictionary
    [self].  [setdefault] runs before the description is parsed, so its
    effect stays when parsing raises. *)
Definition opt_eliot_destination (self : gmap string (list file_source))
    (description : string)
    : result unit * gmap string (list file_source) :=
  let self1 :=
    match self !! "destinations" with
    | Some _ => self
    | None => <["destinations" := []]> self
    end in
  match parse description with
  | Err e => (Err e, self1)
  | Ok destination =>
      (Ok tt,
       <["destinations" := (default [] (self1 !! "destinations")
                            ++ [destination])%list]> self1)
  end.
End Parser.

(** The text [name=value] of an argument. *)
Definition argument (kv : string * string) : string :=
  kv.1 +:+ String equals kv.2.

(** What follows the path name in a description: each argument behind a
    colon. *)
Fixpoint arguments_text (args : list string) : string :=
  match args with
  | [] => EmptyString
  | a :: args' => String colon (a +:+ arguments_text args')
  end.

(** The value [_get_arg] picks among well-formed arguments: that of the
    last one with the name, else the default. *)
Definition chosen (arg_name : string) (default : Z)
    (pairs : list (string * string)) : arg_value :=
  match (list_to_map (reverse pairs) : gmap string string) !! arg_name with
  | Some text => Given text
  | None => Default default
  end.

(** [opt_eliot_destination] once for each description, stopping at the
    first that raises. *)
Fixpoint opt_eliot_destinations (py_int : string → option Z)
    (self : gmap string (list file_source)) (descriptions : list string)
    : result unit * gmap string (list file_source) :=
  match descriptions with
  | [] => (Ok tt, self)
  | d :: ds =>
      match opt_eliot_destination py_int self d with
      | (Ok _, self') => opt_eliot_destinations py_int self' ds
      | (Err e, self') => (Err e, self')
      end
  end.

(** Decimal digits only: a function that agrees with [int] on such
    texts, to run the parser on. *)
Fixpoint digits_value (acc : Z) (s : string) : option Z :=
  match s with
  | EmptyString => Some acc
  | String c s' =>
      let n := nat_of_ascii c in
      if ((48 <=? n) && (n <=? 57))%nat
      then digits_value (10 * acc + Z.of_nat (n - 48)) s'
      else None
  end.

Definition decimal (s : string) : option Z :=
  match s with
  | EmptyString => None
  | _ => digits_value 0 s
  end.

(** ** Re-publishing Twisted log events: [_TwistedLoggerToEliotObserver] *)

Section Observer.
Context {json : Type} (json_text : string → json).

(** [_observe], lines 253-264, from [flattened] on and up to the call
    of [Message.new]: the keyword arguments that call is made with.
    [pop] of a missing ["log_time"] raises [KeyError]; a field named
    ["message_type"] makes the call expression itself raise [TypeError],
    the keyword being given twice.  [Message.new] and [write] are Eliot's
    and are not modelled: what [Message.new] does with the keyword
    arguments it is given (it may bind some to parameters of its own, or
    refuse them) is not part of this definition. *)
Definition _observe (flattened : gmap string json)
    : result (gmap string json) :=
  match flattened !! "log_time" with
  | None => Err KeyError
  | Some _ =>
      let flattened := delete "log_logger" (delete "log_time" flattened) in
      match flattened !! "message_type" with
      | Some _ => Err TypeError
      | None => Ok (<["message_type" := json_text "eliot:twisted"]> flattened)
      end
  end.
End Observer.

(** ** Conditions on what a body emits *)

(** A body that emits its messages through [Message.log] and in no other
    way: a step taken while the current stack is [s] adds messages
    attributed to [s] and leaves the earlier ones. *)
Definition emits_under_current (g : generator_function) : Prop :=
  ∀ st r w s, _get_stack w = Ok s →
    ∃ types : list string,
      messages (gresume g st r w).2
      = (messages w ++ ((λ m, (m, s)) <$> types))%list.

(** A body that emits nothing. *)
Definition silent (g : generator_function) : Prop :=
  ∀ st r w, messages (gresume g st r w).2 = messages w.

(** How many of the outcomes are yielded values. *)
Definition yields (os : list outcome) : nat :=
  length (filter (λ o, is_yield o = true) os).
Arguments yields : simpl never.

(** A generator that touches nothing: it yields n, n-1, ..., 1 and
    returns. *)
Definition countdown_resume (n : nat) (r : resume) (w : World)
    : outcome * nat * World :=
  match r, n with
  | Throw e, _ => (Raised e, 0, w)
  | Send _, O => (Completed VNone, 0, w)
  | Send _, Datatypes.S n' => (Yielded (VInt (Z.of_nat n)), n', w)
  end.

Definition countdown (n : nat) : generator_function :=
  {| gstate := nat; gstart := n; gresume := countdown_resume |}.

(** ** Bodies that change the current stack *)

(** A body that leaves the active slot as it finds it and unregisters no
    generator.  It may change the registered stacks, its own included,
    as a body does that starts an action and yields before finishing
    it. *)
Definition keeps_registered (g : generator_function) : Prop :=
  ∀ st r w,
    _current_generator (gresume g st r w).2 = _current_generator w ∧
    ∀ h, is_Some (_contexts w !! h) →
         is_Some (_contexts (gresume g st r w).2 !! h).

(** A body that changes no stack but the current one: a step leaves the
    active slot as it finds it and leaves the stack of every generator
    that is not the active one as it is; the stack of the active
    generator it may change. *)
Definition changes_current_only (g : generator_function) : Prop :=
  ∀ st r w, handles_allocated w →
    handles_allocated (gresume g st r w).2 ∧
    _current_generator (gresume g st r w).2 = _current_generator w ∧
    ∀ h s, _current_generator w ≠ Some h →
           _contexts w !! h = Some s →
           _contexts (gresume g st r w).2 !! h = Some s.

(** What starting an action does to the current stack, as Eliot's
    execution context (not part of this repository) does it: the action
    is appended to the list [_get_stack()] returns, which for an active
    generator is the list the registry holds. *)
Definition push (action : string) (w : World) : result World :=
  match _current_generator w with
  | None => Ok (set_main_stack (main_stack w ++ [action])%list w)
  | Some g =>
      match _contexts w !! g with
      | Some stack =>
          Ok (set_contexts (<[g := (stack ++ [action])%list]> (_contexts w)) w)
      | None => Err KeyError
      end
  end.

(** A generator that starts the action "inner", yields 1 and 2 with the
    action still open, and returns "done". *)
Inductive actor_pc : Type := ActorStart | ActorFirst | ActorSecond | ActorDone.

Definition actor_resume (pc : actor_pc) (r : resume) (w : World)
    : outcome * actor_pc * World :=
  match pc, r with
  | ActorDone, Send _ => (Completed VNone, ActorDone, w)
  | _, Throw e => (Raised e, ActorDone, w)
  | ActorStart, Send _ =>
      match push "inner" w with
      | Ok w' => (Yielded (VInt 1), ActorFirst, w')
      | Err e => (Raised e, ActorDone, w)
      end
  | ActorFirst, Send _ => (Yielded (VInt 2), ActorSecond, w)
  | ActorSecond, Send _ => (Completed (VStr "done"), ActorDone, w)
  end.

Definition actor : generator_function :=
  {| gstate := actor_pc; gstart := ActorStart; gresume := actor_resume |}.

(** * Properties *)

(** ** The registry *)

Lemma get_stack_inactive (w : World) :
  _current_generator w = None → get_stack w = Ok None.
Proof. unfold get_stack. by intros ->. Qed.

Lemma get_stack_active (w : World) (g : handle) (s : Stack) :
  _current_generator w = Some g → _contexts w !! g = Some s →
  get_stack w = Ok (Some s).
Proof. unfold get_stack. by intros -> ->. Qed.

Lemma get_stack_unregistered (w : World) (g : handle) :
  _current_generator w = Some g → _contexts w !! g = None →
  get_stack w = Err KeyError.
Proof. unfold get_stack. by intros -> ->. Qed.

Lemma _get_stack_active (w : World) (g : handle) (s : Stack) :
  _current_generator w = Some g → _contexts w !! g = Some s →
  _get_stack w = Ok s.
Proof.
  intros Hg Hs. unfold _get_stack. by rewrite (get_stack_active w g s).
Qed.

Lemma _get_stack_registered (w : World) :
  slot_registered w → ∃ s, _get_stack w = Ok s.
Proof.
  intros Hreg. unfold _get_stack, get_stack.
  destruct (_current_generator w) as [g|] eqn:Hg; [|by eexists].
  destruct (Hreg g Hg) as [s ->]. by eexists.
Qed.

Lemma Message_log_active (m : string) (w : World) (g : handle) (s : Stack) :
  _current_generator w = Some g → _contexts w !! g = Some s →
  Message_log m w = Ok (add_message (m, s) w).
Proof.
  intros Hg Hs. unfold Message_log. by rewrite (_get_stack_active w g s).
Qed.

(** C7: the context query answers [None] when no generator is active (and
    the execution context then falls back on the ambient stack); when a
    generator is active it answers that generator's registered stack; and
    when the active generator has no registered stack the query raises
    [KeyError], which neither the execution context nor message logging
    turn into an answer. *)
Theorem get_stack_cases (w : World) :
  (_current_generator w = None →
     get_stack w = Ok None ∧ _get_stack w = Ok (main_stack w)) ∧
  (∀ g s, _current_generator w = Some g → _contexts w !! g = Some s →
     get_stack w = Ok (Some s) ∧ _get_stack w = Ok s) ∧
  (∀ g, _current_generator w = Some g → _contexts w !! g = None →
     get_stack w = Err KeyError ∧ _get_stack w = Err KeyError ∧
     ∀ m, Message_log m w = Err KeyError).
Proof.
  split; [|split].
  - intros Hnone. unfold _get_stack. by rewrite get_stack_inactive.
  - intros g s Hg Hs. split; [by apply get_stack_active with g|].
    by apply _get_stack_active with g.
  - intros g Hg Hnone.
    assert (get_stack w = Err KeyError) as Hq
      by by apply get_stack_unregistered with g.
    unfold Message_log, _get_stack. by rewrite Hq.
Qed.

Lemma get_stack_cases_witness :
  (get_stack (new_world ["root"]) = Ok None ∧
   _get_stack (new_world ["root"]) = Ok ["root"]) ∧
  (get_stack (mkWorld {[ 0 := ["a"] ]} (Some 0) ["root"] [] 1)
     = Ok (Some ["a"]) ∧
   _get_stack (mkWorld {[ 0 := ["a"] ]} (Some 0) ["root"] [] 1)
     = Ok ["a"]) ∧
  (get_stack (mkWorld ∅ (Some 0) ["root"] [] 1) = Err KeyError ∧
   _get_stack (mkWorld ∅ (Some 0) ["root"] [] 1) = Err KeyError ∧
   ∀ m, Message_log m (mkWorld ∅ (Some 0) ["root"] [] 1) = Err KeyError).
Proof.
  split; [|split].
  - apply (get_stack_cases (new_world ["root"])). reflexivity.
  - apply (get_stack_cases (mkWorld {[ 0 := ["a"] ]} (Some 0) ["root"] [] 1))
      with 0; reflexivity.
  - apply (get_stack_cases (mkWorld ∅ (Some 0) ["root"] [] 1)) with 0;
      reflexivity.
Defined.

(** What [init_stack] stores, wherever the current stack can be read. *)
Lemma init_stack_stores (generator : handle) (self : World)
    (stack : Stack) :
  _get_stack self = Ok stack →
  ∃ self', init_stack generator self = Ok self' ∧
    _contexts self' !! generator = Some stack ∧
    (∀ h, h ≠ generator → _contexts self' !! h = _contexts self !! h) ∧
    _current_generator self' = _current_generator self ∧
    main_stack self' = main_stack self.
Proof.
  intros Hs. unfold init_stack. rewrite Hs. eexists. split; [done|].
  simpl. split; [by rewrite lookup_insert_eq|].
  split; [|done]. intros h Hne. by rewrite lookup_insert_ne.
Qed.

(** C6, as the code has it: [init_stack] never refuses a generator.
    Whenever the current stack can be read it stores that stack under the
    generator, whether or not one was stored before, replacing the earlier
    one; the other registrations and the active slot stay as they were. *)
Theorem init_stack_replaces (generator : handle) (self : World)
    (stack : Stack) :
  _get_stack self = Ok stack →
  ∃ self', init_stack generator self = Ok self' ∧
    _contexts self' !! generator = Some stack ∧
    (∀ h, h ≠ generator → _contexts self' !! h = _contexts self !! h) ∧
    _current_generator self' = _current_generator self ∧
    main_stack self' = main_stack self.
Proof.
  intros Hs. unfold init_stack. rewrite Hs. eexists. split; [done|].
  simpl. split; [by rewrite lookup_insert_eq|].
  split; [|done]. intros h Hne. by rewrite lookup_insert_ne.
Qed.

Lemma init_stack_replaces_witness :
  _contexts (mkWorld {[ 0 := ["root"] ]} None ["other"] [] 1) !! 0
    = Some ["root"] ∧
  ∃ self', init_stack 0 (mkWorld {[ 0 := ["root"] ]} None ["other"] [] 1)
             = Ok self' ∧
    _contexts self' !! 0 = Some ["other"] ∧
    (∀ h, h ≠ 0 → _contexts self' !! h
                  = _contexts (mkWorld {[ 0 := ["root"] ]} None ["other"] [] 1)
                      !! h) ∧
    _current_generator self' = None ∧
    main_stack self' = ["other"].
Proof.
  split; [reflexivity|].
  apply (init_stack_replaces 0
           (mkWorld {[ 0 := ["root"] ]} None ["other"] [] 1) ["other"]).
  reflexivity.
Defined.

(** C6, as the specification states it, fails: a first call registers the
    generator, the ambient stack changes, and a second call for the same
    generator succeeds and replaces the registered stack. *)
Lemma init_stack_twice_succeeds :
  ∃ w1 w2,
    init_stack 0 (new_world ["root"]) = Ok w1 ∧
    _contexts w1 !! 0 = Some ["root"] ∧
    init_stack 0 (set_main_stack ["other"] w1) = Ok w2 ∧
    _contexts w2 !! 0 = Some ["other"].
Proof. do 2 eexists. repeat split; reflexivity. Qed.

(** ** One resumption of the wrapper *)

Section Resumption.
Context (original : generator_function).

Lemma deliver_pending (st : gstate original) (r : resume) (w : World) :
  deliver original st (pending r).1 (pending r).2 w = gresume original st r w.
Proof. by destruct r. Qed.

Lemma after_with_world (gen : handle) (x : outcome * gstate original)
    (w : World) :
  (after_with original gen x w).2 = w.
Proof. unfold after_with. by destruct x.1. Qed.

Lemma after_with_outcome (gen : handle) (x : outcome * gstate original)
    (w : World) :
  (after_with original gen x w).1.1 = reported x.1.
Proof. unfold after_with. by destruct x.1. Qed.

(** The loop turn, written out: the body of the [with] statement runs in
    the world where [gen] is active, and the slot is put back after it. *)
Lemma iteration_unfold (gen : handle) (st : gstate original) (ok : bool)
    (value_in : pyval) (w : World) :
  iteration original gen st ok value_in w =
  after_with original gen
    (with_body original st ok value_in
       (set_current_generator (Some gen) w)).1
    (set_current_generator (_current_generator w)
       (with_body original st ok value_in
          (set_current_generator (Some gen) w)).2).
Proof.
  unfold iteration, context.
  by destruct (with_body original st ok value_in _) as [x w'].
Qed.

Lemma wrapper_resume_parked (gen : handle) (st : gstate original)
    (r : resume) (w : World) :
  wrapper_resume original (AtYield gen st) r w =
  iteration original gen st (pending r).1 (pending r).2 w.
Proof. by destruct r. Qed.

Lemma wrapper_resume_first (w w2 : World) :
  init_stack (next_handle w) (new_object w).2 = Ok w2 →
  wrapper_resume original NotStarted (Send VNone) w =
  iteration original (next_handle w) (gstart original) true VNone w2.
Proof. simpl. by intros ->. Qed.

Lemma iteration_restores (gen : handle) (st : gstate original) (ok : bool)
    (value_in : pyval) (w : World) :
  _current_generator (iteration original gen st ok value_in w).2
  = _current_generator w.
Proof. by rewrite iteration_unfold, after_with_world. Qed.

Lemma init_stack_current (gen : handle) (w w' : World) :
  init_stack gen w = Ok w' → _current_generator w' = _current_generator w.
Proof.
  unfold init_stack. destruct (_get_stack w); [|done]. by intros [= <-].
Qed.

Lemma wrapper_restores_slot (ws : wrapper_state original) (r : resume)
    (w : World) :
  _current_generator (wrapper_resume original ws r w).2
  = _current_generator w.
Proof.
  destruct ws as [|gen st|].
  - destruct r as [[]|]; try done. simpl.
    destruct (init_stack _ _) as [w2|] eqn:Hinit; [|done].
    rewrite iteration_restores. by rewrite (init_stack_current _ _ _ Hinit).
  - rewrite wrapper_resume_parked. apply iteration_restores.
  - by destruct r.
Qed.

(** When the step of the generator raises, that exception is the result
    of the loop turn, and the world is the one the generator left with
    the slot put back. *)
Lemma iteration_raises (gen : handle) (st st' : gstate original) (ok : bool)
    (value_in : pyval) (w wb : World) (e : exn) :
  deliver original st ok value_in (set_current_generator (Some gen) w)
    = (Raised e, st', wb) →
  iteration original gen st ok value_in w
    = (Raised e, Finished, set_current_generator (_current_generator w) wb).
Proof.
  intros Hstep. rewrite iteration_unfold. unfold with_body.
  by rewrite Hstep.
Qed.

(** C4: on every exit path of a resumption of the wrapper, whatever the
    generator did, the active slot is back at the value it had before;
    and an exception the generator raises, at its first step or at a
    later one, is the exception the wrapper raises, unchanged, out of a
    world in which the slot has been restored. *)
Theorem failure_propagation (ws : wrapper_state original) (r : resume)
    (w : World) :
  _current_generator (wrapper_resume original ws r w).2
    = _current_generator w ∧
  (∀ gen st e st' wb,
     ws = AtYield gen st →
     gresume original st r (set_current_generator (Some gen) w)
       = (Raised e, st', wb) →
     wrapper_resume original ws r w
       = (Raised e, Finished,
          set_current_generator (_current_generator w) wb)) ∧
  (∀ w2 e st' wb,
     ws = NotStarted → r = Send VNone →
     init_stack (next_handle w) (new_object w).2 = Ok w2 →
     gresume original (gstart original) (Send VNone)
       (set_current_generator (Some (next_handle w)) w2)
       = (Raised e, st', wb) →
     wrapper_resume original ws r w
       = (Raised e, Finished,
          set_current_generator (_current_generator w) wb)).
Proof.
  split; [apply wrapper_restores_slot|]. split.
  - intros gen st e st' wb -> Hstep.
    rewrite wrapper_resume_parked.
    apply iteration_raises with st'. by rewrite deliver_pending.
  - intros w2 e st' wb -> -> Hinit Hstep.
    rewrite (wrapper_resume_first _ _ Hinit).
    rewrite (iteration_raises _ _ st' _ _ _ wb e); [|done].
    by rewrite (init_stack_current _ _ _ Hinit).
Qed.
End Resumption.

Lemma failure_propagation_witness :
  let w := mkWorld {[ 0 := ["root"] ]} (Some 7) ["other"] [] 1 in
  _current_generator
    (wrapper_resume scenario (AtYield (original := scenario) 0 AfterFirst) (Throw (Exc "boom")) w).2
    = Some 7 ∧
  wrapper_resume scenario (AtYield (original := scenario) 0 AfterFirst) (Throw (Exc "boom")) w
    = (Raised (Exc "boom"), Finished, w).
Proof.
  intros w.
  pose proof (failure_propagation scenario (AtYield (original := scenario) 0 AfterFirst)
                (Throw (Exc "boom")) w) as (Hslot & Hlater & _).
  split; [exact Hslot|].
  apply (Hlater 0 AfterFirst (Exc "boom") Returned
           (set_current_generator (Some 0) w)); reflexivity.
Defined.

(** ** Bodies that respect the registry *)

Lemma frame_refl (w : World) : frame w w.
Proof. by split. Qed.

Lemma frame_trans (w1 w2 w3 : World) :
  frame w1 w2 → frame w2 w3 → frame w1 w3.
Proof.
  intros [Hc1 Hr1] [Hc2 Hr2]. split; [congruence|].
  intros h s Hs. by apply Hr2, Hr1.
Qed.

Lemma Message_log_frame (m : string) (w w' : World) :
  Message_log m w = Ok w' →
  frame w w' ∧ next_handle w' = next_handle w ∧ _contexts w' = _contexts w.
Proof.
  unfold Message_log. destruct (_get_stack w); [|done].
  intros [= <-]. by repeat split.
Qed.

Section Respectful.
Context (original : generator_function) (Hresp : respects original).

Lemma deliver_respects (st : gstate original) (ok : bool) (value_in : pyval)
    (w : World) :
  handles_allocated w →
  handles_allocated (deliver original st ok value_in w).2 ∧
  frame w (deliver original st ok value_in w).2.
Proof.
  intros Hw. unfold deliver. destruct ok; [by apply Hresp|].
  destruct value_in; try (split; [done|apply frame_refl]).
  by apply Hresp.
Qed.

(** With [gen] active and registered, the body of the [with] statement is
    the step of the generator followed, when it yielded, by the marker
    attributed to the stack registered for [gen]. *)
Lemma with_body_active (gen : handle) (s : Stack) (st : gstate original)
    (ok : bool) (value_in : pyval) (w : World) :
  handles_allocated w →
  _current_generator w = Some gen → _contexts w !! gen = Some s →
  with_body original st ok value_in w =
  ((deliver original st ok value_in w).1,
   if is_yield (deliver original st ok value_in w).1.1
   then add_message ("yielded", s) (deliver original st ok value_in w).2
   else (deliver original st ok value_in w).2).
Proof.
  intros Hw Hcur Hreg.
  destruct (deliver_respects st ok value_in w Hw) as [_ [Hc Hr]].
  unfold with_body, log_yielded.
  destruct (deliver original st ok value_in w) as [[o st'] w1]. simpl in *.
  destruct o; try done.
  rewrite (Message_log_active _ w1 gen s); [done|congruence|by apply Hr].
Qed.

Lemma iteration_active (gen : handle) (s : Stack) (st : gstate original)
    (ok : bool) (value_in : pyval) (w : World) :
  handles_allocated w → _contexts w !! gen = Some s →
  iteration original gen st ok value_in w =
  let d := deliver original st ok value_in
             (set_current_generator (Some gen) w) in
  after_with original gen d.1
    (set_current_generator (_current_generator w)
       (if is_yield d.1.1 then add_message ("yielded", s) d.2 else d.2)).
Proof.
  intros Hw Hreg. rewrite iteration_unfold.
  by rewrite (with_body_active gen s).
Qed.

(** A loop turn keeps the registry in order, whether or not [gen] is
    registered. *)
Lemma iteration_respects (gen : handle) (st : gstate original)
    (ok : bool) (value_in : pyval) (w : World) :
  handles_allocated w →
  handles_allocated (iteration original gen st ok value_in w).2 ∧
  frame w (iteration original gen st ok value_in w).2.
Proof.
  intros Hw. rewrite iteration_unfold, after_with_world.
  destruct (deliver_respects st ok value_in
              (set_current_generator (Some gen) w) Hw) as [Ha [_ Hr]].
  unfold with_body, log_yielded.
  destruct (deliver original st ok value_in _) as [[o st'] w1].
  simpl in Ha, Hr.
  assert (∀ wx, next_handle wx = next_handle w1 →
                _contexts wx = _contexts w1 →
                handles_allocated (set_current_generator
                                     (_current_generator w) wx) ∧
                frame w (set_current_generator (_current_generator w) wx))
    as Hkeep.
  { intros wx Hn Hc. split.
    - intros h. simpl. rewrite Hn, Hc. apply Ha.
    - split; [done|]. simpl. rewrite Hc. apply Hr. }
  destruct o; simpl; try by apply Hkeep.
  destruct (Message_log "yielded" w1) as [w2|] eqn:Hlog; simpl;
    [|by apply Hkeep].
  apply Message_log_frame in Hlog as (_ & Hn & Hc). by apply Hkeep.
Qed.

Lemma init_stack_fresh (w w2 : World) :
  handles_allocated w →
  init_stack (next_handle w) (new_object w).2 = Ok w2 →
  handles_allocated w2 ∧ frame w w2 ∧
  ∃ s, _get_stack w = Ok s ∧ _contexts w2 !! next_handle w = Some s.
Proof.
  intros Hw. unfold init_stack.
  change (_get_stack (new_object w).2) with (_get_stack w).
  destruct (_get_stack w) as [s|]; [|done]. intros [= <-]. simpl.
  split; [|split].
  - intros h. simpl. destruct (decide (h = next_handle w)) as [->|Hne]; [lia|].
    rewrite lookup_insert_ne by done. intros Hh. specialize (Hw h Hh). lia.
  - split; [done|]. intros h s' Hs'. simpl.
    rewrite lookup_insert_ne; [done|].
    intros <-. assert (next_handle w < next_handle w); [|lia].
    apply Hw. by eexists.
  - exists s. split; [done|]. by rewrite lookup_insert_eq.
Qed.

(** The decorated generator function respects the registry as well, so
    decorated generators can drive decorated generators to any depth. *)
Lemma wrapper_respects :
  respects (eliot_friendly_generator_function original).
Proof.
  intros ws r w Hw. simpl.
  destruct ws as [|gen st|].
  - destruct r as [[]|]; try (split; [done|apply frame_refl]). simpl.
    destruct (init_stack _ _) as [w2|] eqn:Hinit.
    + destruct (init_stack_fresh w w2 Hw Hinit) as (Hw2 & Hf & _).
      destruct (iteration_respects (next_handle w) (gstart original)
                  true VNone w2 Hw2) as [Ha Hf'].
      split; [done|]. by apply frame_trans with w2.
    + simpl. split; [|by split].
      intros h Hh. specialize (Hw h Hh). simpl. lia.
  - rewrite wrapper_resume_parked. by apply iteration_respects.
  - destruct r; (split; [done|apply frame_refl]).
Qed.
End Respectful.

Lemma Message_log_respects (m : string) (w w' : World) :
  handles_allocated w → Message_log m w = Ok w' →
  handles_allocated w' ∧ frame w w'.
Proof.
  intros Hw Hlog. apply Message_log_frame in Hlog as (Hf & Hn & Hc).
  split; [|done]. intros h. rewrite Hn, Hc. apply Hw.
Qed.

Lemma scenario_respects : respects scenario.
Proof.
  intros pc r w Hw. simpl.
  assert (∀ m o next,
            handles_allocated (record_then m o next w).2 ∧
            frame w (record_then m o next w).2) as Hrec.
  { intros m o next. unfold record_then.
    destruct (Message_log m w) as [w'|] eqn:Hlog; simpl.
    - by apply Message_log_respects with m.
    - split; [done|apply frame_refl]. }
  destruct pc, r; simpl; try apply Hrec; (split; [done|apply frame_refl]).
Qed.

Lemma new_world_well_formed (ambient : Stack) :
  well_formed (new_world ambient).
Proof.
  split.
  - intros h [s Hs]. simpl in Hs. by rewrite lookup_empty in Hs.
  - intros h Hh. done.
Qed.

Lemma singleton_allocated (g : handle) (s : Stack) (cur : option handle)
    (ambient : Stack) (evs : list Event) (n : handle) :
  g < n → handles_allocated (mkWorld {[ g := s ]} cur ambient evs n).
Proof.
  intros Hlt h [x Hx]. simpl in *.
  apply lookup_singleton_Some in Hx as [<- _]. done.
Qed.

(** ** Attribution *)

(** What a loop turn does to the messages when the generator respects the
    registry and [gen] is registered with [s]: a step that yields is
    followed by one marker attributed to [s], any other step by none. *)
Lemma iteration_marker (original : generator_function)
    (Hresp : respects original) (gen : handle) (s : Stack)
    (st : gstate original) (ok : bool) (value_in : pyval) (w : World) :
  handles_allocated w → _contexts w !! gen = Some s →
  let d := deliver original st ok value_in
             (set_current_generator (Some gen) w) in
  let res := iteration original gen st ok value_in w in
  res.1.1 = reported d.1.1 ∧
  _current_generator res.2 = _current_generator w ∧
  match d.1.1 with
  | Yielded _ =>
      res.1.2 = AtYield gen d.1.2 ∧
      messages res.2 = (messages d.2 ++ [("yielded", s)])%list
  | _ => res.1.2 = Finished ∧ messages res.2 = messages d.2
  end.
Proof.
  intros Hw Hreg d res. subst res.
  rewrite (iteration_active original Hresp gen s); [|done..].
  fold d. simpl. rewrite after_with_outcome, after_with_world.
  split; [done|]. split; [done|].
  unfold after_with. by destruct (d.1.1).
Qed.

Lemma actor_keeps_registered : keeps_registered actor.
Proof.
  intros pc r w. simpl.
  assert (_current_generator (actor_resume ActorStart (Send VNone) w).2
            = _current_generator w ∧
          ∀ h, is_Some (_contexts w !! h) →
               is_Some (_contexts (actor_resume ActorStart (Send VNone) w).2
                          !! h)) as Hpush.
  { cbn [actor_resume]. unfold push.
    destruct (_current_generator w) as [g|] eqn:Hg; [|done].
    destruct (_contexts w !! g) as [stack|] eqn:Hs; [|done]. simpl.
    split; [done|]. intros h Hh.
    destruct (decide (g = h)) as [->|Hne].
    - rewrite lookup_insert_eq. by eexists.
    - by rewrite lookup_insert_ne. }
  destruct pc, r; try done; exact Hpush.
Qed.

(** What a loop turn does to the messages, for any body.  When the step
    yields and leaves [gen] active and registered with [s], the value is
    passed on and one marker follows what the step emitted, attributed
    to [s]; after a step that completes or raises there is no marker. *)
Lemma iteration_marks (original : generator_function) (gen : handle)
    (st : gstate original) (ok : bool) (value_in : pyval) (w : World) :
  let d := deliver original st ok value_in
             (set_current_generator (Some gen) w) in
  let res := iteration original gen st ok value_in w in
  _current_generator res.2 = _current_generator w ∧
  match d.1.1 with
  | Yielded v =>
      ∀ s, _current_generator d.2 = Some gen →
           _contexts d.2 !! gen = Some s →
           res.1 = (Yielded v, AtYield gen d.1.2) ∧
           messages res.2 = (messages d.2 ++ [("yielded", s)])%list
  | _ =>
      res.1 = (reported d.1.1, Finished) ∧ messages res.2 = messages d.2
  end.
Proof.
  intros d res. subst d res. split; [apply iteration_restores|].
  rewrite iteration_unfold. unfold with_body, log_yielded.
  destruct (deliver original st ok value_in _) as [[o st'] wb]. simpl.
  destruct o as [v| |]; [|done..].
  intros s Hcur Hreg. by rewrite (Message_log_active _ wb gen s).
Qed.

(** C8: for every generator body and every resumption of the wrapper,
    the first one included.  When the step of the generator yields, with
    the generator still the active one and registered with [s] at that
    point, the wrapper passes the value on and emits exactly one
    "yielded" message after whatever the step itself emitted, attributed
    to [s], the generator's own stack as the step left it, although the
    slot is back at its earlier value when the wrapper gives up control.
    When the step signals completion, or raises, no message follows. *)
Theorem marker_per_suspension (original : generator_function) (w : World) :
  (∀ gen st r,
     let d := gresume original st r (set_current_generator (Some gen) w) in
     let res := wrapper_resume original (AtYield gen st) r w in
     _current_generator res.2 = _current_generator w ∧
     match d.1.1 with
     | Yielded v =>
         ∀ s, _current_generator d.2 = Some gen →
              _contexts d.2 !! gen = Some s →
              res.1 = (Yielded v, AtYield gen d.1.2) ∧
              messages res.2 = (messages d.2 ++ [("yielded", s)])%list
     | _ =>
         res.1 = (reported d.1.1, Finished) ∧ messages res.2 = messages d.2
     end) ∧
  (∀ s0, _get_stack w = Ok s0 →
     ∃ w2, init_stack (next_handle w) (new_object w).2 = Ok w2 ∧
     let gen := next_handle w in
     let d := gresume original (gstart original) (Send VNone)
                (set_current_generator (Some gen) w2) in
     let res := wrapper_resume original NotStarted (Send VNone) w in
     _current_generator res.2 = _current_generator w ∧
     match d.1.1 with
     | Yielded v =>
         ∀ s, _current_generator d.2 = Some gen →
              _contexts d.2 !! gen = Some s →
              res.1 = (Yielded v, AtYield gen d.1.2) ∧
              messages res.2 = (messages d.2 ++ [("yielded", s)])%list
     | _ =>
         res.1 = (reported d.1.1, Finished) ∧ messages res.2 = messages d.2
     end).
Proof.
  split.
  - intros gen st r d res. subst d res.
    rewrite wrapper_resume_parked, <- deliver_pending.
    apply iteration_marks.
  - intros s0 Hs0.
    destruct (init_stack_stores (next_handle w) (new_object w).2 s0 Hs0)
      as (w2 & Hinit & _ & _ & Hcur & _).
    exists w2. split; [done|]. intros gen d res. subst gen d res.
    rewrite (wrapper_resume_first original w w2 Hinit).
    simpl in Hcur. rewrite <- Hcur.
    apply (iteration_marks original (next_handle w) (gstart original)
             true VNone w2).
Qed.

Lemma marker_per_suspension_witness :
  let w := set_main_stack ["other"] (new_world ["root"]) in
  let res := wrapper_resume actor NotStarted (Send VNone) w in
  _get_stack w = Ok ["other"] ∧
  _current_generator res.2 = None ∧
  res.1 = (Yielded (VInt 1), AtYield (original := actor) 0 ActorFirst) ∧
  messages res.2 = ([] ++ [("yielded", ["other"; "inner"])])%list.
Proof.
  intros w res.
  destruct (marker_per_suspension actor w) as [_ Hfirst].
  destruct (Hfirst ["other"]) as (w2 & Hinit & Hslot & Hmark);
    [reflexivity|].
  injection Hinit as <-.
  split; [reflexivity|]. split; [exact Hslot|].
  apply (Hmark ["other"; "inner"]); reflexivity.
Defined.

(** C1, as the code has it: the stack is captured when the generator the
    wrapper returned is first resumed, not when the wrapper was called.
    Whatever world [w_call] the wrapper was called in, if [s] is the
    current stack at the first resumption then the generator's code up to
    its first yield runs in a world whose current stack is [s]. *)
Theorem attribution_first_resumption (original : generator_function)
    (w_call w : World) (s : Stack) :
  _get_stack w = Ok s →
  ∃ w2, init_stack (next_handle w) (new_object w).2 = Ok w2 ∧
    let w_in := set_current_generator (Some (next_handle w)) w2 in
    let x := log_yielded original
               (gresume original (gstart original) (Send VNone) w_in) in
    _get_stack w_in = Ok s ∧
    wrapper_resume original (wrapper original w_call).1 (Send VNone) w =
    after_with original (next_handle w) x.1
      (set_current_generator (_current_generator w) x.2).
Proof.
  intros Hs.
  destruct (init_stack_stores (next_handle w) (new_object w).2 s Hs)
    as (w2 & Hinit & Hreg & _ & Hcur & _).
  exists w2. split; [done|]. split.
  - by apply _get_stack_active with (next_handle w).
  - change (wrapper original w_call).1 with (@NotStarted original).
    rewrite (wrapper_resume_first original w w2 Hinit), iteration_unfold.
    simpl in Hcur. by rewrite Hcur.
Qed.

Lemma attribution_first_resumption_witness :
  _get_stack (set_main_stack ["other"] (new_world ["root"])) = Ok ["other"] ∧
  ∃ w2, init_stack 0 (new_object
                        (set_main_stack ["other"] (new_world ["root"]))).2
          = Ok w2 ∧
    let w_in := set_current_generator (Some 0) w2 in
    let x := log_yielded scenario
               (gresume scenario (gstart scenario) (Send VNone) w_in) in
    _get_stack w_in = Ok ["other"] ∧
    wrapper_resume scenario (wrapper scenario (new_world ["root"])).1
      (Send VNone) (set_main_stack ["other"] (new_world ["root"])) =
    after_with scenario 0 x.1 (set_current_generator None x.2).
Proof.
  split; [reflexivity|].
  apply (attribution_first_resumption scenario (new_world ["root"])
           (set_main_stack ["other"] (new_world ["root"])) ["other"]).
  reflexivity.
Defined.

(** C1, as the specification states it, fails: the wrapper is called
    while the current stack is ["root"], the ambient stack is ["other"]
    when its result is first resumed, and the message the generator logs
    before its first yield is attributed to ["other"]. *)
Lemma attribution_wrap_time_fails :
  let w_call := new_world ["root"] in
  let ws := (wrapper scenario w_call).1 in
  let w_resume := set_main_stack ["other"] (wrapper scenario w_call).2 in
  _get_stack w_call = Ok ["root"] ∧
  messages (wrapper_resume scenario ws (Send VNone) w_resume).2
    = [("A", ["other"]); ("yielded", ["other"])].
Proof. split; reflexivity. Qed.

(** ** The marker cannot be switched off *)

(** Whenever a loop turn yields, the message emitted last is the marker:
    no generator, input or world makes the wrapper yield without it. *)
Lemma iteration_yield_marker (original : generator_function) (gen : handle)
    (st : gstate original) (ok : bool) (value_in : pyval) (w : World)
    (v : pyval) (ws' : wrapper_state original) (w' : World) :
  iteration original gen st ok value_in w = (Yielded v, ws', w') →
  ∃ (s : Stack) (before : list Event),
    messages w' = (before ++ [("yielded", s)])%list.
Proof.
  rewrite iteration_unfold. unfold with_body, log_yielded.
  destruct (deliver original st ok value_in _) as [[o st'] w1].
  destruct o as [v'| |]; simpl; [|by unfold after_with..].
  unfold Message_log. destruct (_get_stack w1) as [s|]; simpl;
    [|by unfold after_with].
  unfold after_with. simpl. intros [= _ _ <-]. by exists s, (messages w1).
Qed.

Lemma wrapper_yield_marker (original : generator_function)
    (ws : wrapper_state original) (r : resume) (w : World)
    (v : pyval) (ws' : wrapper_state original) (w' : World) :
  wrapper_resume original ws r w = (Yielded v, ws', w') →
  ∃ (s : Stack) (before : list Event),
    messages w' = (before ++ [("yielded", s)])%list.
Proof.
  destruct ws as [|gen st|].
  - destruct r as [[]|]; try done. simpl.
    destruct (init_stack _ _) as [w2|]; [|done].
    apply iteration_yield_marker.
  - rewrite wrapper_resume_parked. apply iteration_yield_marker.
  - by destruct r.
Qed.

Lemma count_yielded_app (evs : list Event) (s : Stack) :
  count_yielded (evs ++ [("yielded", s)]) = S (count_yielded evs).
Proof.
  unfold count_yielded. rewrite filter_app, length_app.
  rewrite filter_cons_True by done. simpl. lia.
Qed.

(** C9, as the code has it: the marker is hardwired.  The decorator takes
    the generator function and nothing else, and for every generator
    function, every state of the wrapper, every resumption and every
    world, a resumption that yields has emitted the "yielded" message as
    its last message. *)
Theorem marker_unconditional (original : generator_function)
    (ws : wrapper_state original) (r : resume) (w : World)
    (v : pyval) (ws' : wrapper_state original) (w' : World) :
  gresume (eliot_friendly_generator_function original) ws r w
    = (Yielded v, ws', w') →
  ∃ (s : Stack) (before : list Event),
    messages w' = (before ++ [("yielded", s)])%list ∧
    0 < count_yielded (messages w').
Proof.
  simpl. intros Hstep.
  destruct (wrapper_yield_marker original ws r w v ws' w' Hstep)
    as (s & before & Hmsg).
  exists s, before. split; [done|]. rewrite Hmsg, count_yielded_app. lia.
Qed.

Lemma marker_unconditional_witness :
  let w' := (wrapper_resume scenario NotStarted (Send VNone)
               (new_world ["root"])).2 in
  ∃ (s : Stack) (before : list Event),
    messages w' = (before ++ [("yielded", s)])%list ∧
    0 < count_yielded (messages w').
Proof.
  intros w'.
  apply (marker_unconditional scenario NotStarted (Send VNone)
           (new_world ["root"]) (VInt 1)
           (AtYield (original := scenario) 0 AfterFirst) w').
  reflexivity.
Defined.

(** C9, as the specification states it, fails: there is no generator
    function, wrapper state, resumption and world for which the wrapper
    yields without the marker; and driving the scenario to completion
    logs one marker for each of its two suspensions. *)
Lemma marker_not_optional :
  (¬ ∃ (original : generator_function) (ws : wrapper_state original)
       (r : resume) (w : World),
       is_yield (wrapper_resume original ws r w).1.1 = true ∧
       count_yielded (messages (wrapper_resume original ws r w).2) = 0) ∧
  count_yielded
    (messages (feed (wrapper_resume scenario)
                 [Send VNone; Send (VInt 1); Send (VInt 2)]
                 NotStarted (new_world ["root"])).2) = 2.
Proof.
  split; [|reflexivity].
  intros (original & ws & r & w & Hy & Hc).
  destruct (wrapper_resume original ws r w) as [[o ws'] w'] eqn:Hstep.
  destruct o as [v| |]; try done. simpl in Hc.
  destruct (wrapper_yield_marker original ws r w v ws' w' Hstep)
    as (s & before & Hmsg).
  rewrite Hmsg, count_yielded_app in Hc. lia.
Qed.

(** ** Wrapped and unwrapped runs *)

Lemma frame_slot_registered (w w' : World) :
  frame w w' → slot_registered w → slot_registered w'.
Proof.
  intros [Hc Hr] Hreg h Hh. rewrite Hc in Hh.
  destruct (Hreg h Hh) as [s Hs]. exists s. by apply Hr.
Qed.

Lemma activated_slot_registered (gen : handle) (w : World) :
  is_Some (_contexts w !! gen) →
  slot_registered (set_current_generator (Some gen) w).
Proof. intros Hreg h [= <-]. done. Qed.

Lemma scenario_insensitive : context_insensitive scenario.
Proof.
  intros pc r w w' Hw Hw'. simpl.
  assert (∀ m o next,
            (record_then m o next w).1 = (record_then m o next w').1) as Hrec.
  { intros m o next. unfold record_then, Message_log.
    destruct (_get_stack_registered w Hw) as [s ->].
    by destruct (_get_stack_registered w' Hw') as [s' ->]. }
  destruct pc, r; simpl; try apply Hrec; done.
Qed.

Section Simulation.
Context (original : generator_function).
Context (Hresp : respects original) (Hins : context_insensitive original).

Lemma deliver_insensitive (st : gstate original) (ok : bool)
    (value_in : pyval) (w w' : World) :
  slot_registered w → slot_registered w' →
  (deliver original st ok value_in w).1
  = (deliver original st ok value_in w').1.
Proof.
  intros Hw Hw'. unfold deliver. destruct ok; [by apply Hins|].
  destruct value_in; try done. by apply Hins.
Qed.

Lemma deliver_well_formed (st : gstate original) (ok : bool)
    (value_in : pyval) (w : World) :
  well_formed w → well_formed (deliver original st ok value_in w).2.
Proof.
  intros [Ha Hs].
  destruct (deliver_respects original Hresp st ok value_in w Ha) as [Ha' Hf].
  split; [done|]. by apply frame_slot_registered with w.
Qed.

(** One loop turn against one step of the generator on its own, in any
    two worlds: the wrapper reports what the generator produced, and is
    parked holding the generator's next state if that was a value. *)
Lemma iteration_simulates (gen : handle) (st : gstate original) (ok : bool)
    (value_in : pyval) (w w0 : World) :
  handles_allocated w → is_Some (_contexts w !! gen) → well_formed w0 →
  let d := deliver original st ok value_in w0 in
  let res := iteration original gen st ok value_in w in
  res.1 = (reported d.1.1,
           if is_yield d.1.1 then AtYield gen d.1.2 else Finished) ∧
  handles_allocated res.2 ∧ is_Some (_contexts res.2 !! gen).
Proof.
  intros Hw [s Hreg] Hw0 d res. subst d res.
  destruct (iteration_respects original Hresp gen st ok value_in w Hw)
    as [Ha [_ Hr]].
  split; [|split; [done|]]; [|exists s; by apply Hr].
  destruct (iteration_marker original Hresp gen s st ok value_in w Hw Hreg)
    as (Hout & _ & Hst).
  rewrite (deliver_insensitive st ok value_in w0
             (set_current_generator (Some gen) w)); [|by apply Hw0|].
  2: { apply activated_slot_registered. by exists s. }
  destruct (iteration original gen st ok value_in w) as [[o ws'] w'].
  simpl in *. rewrite Hout.
  destruct (deliver original st ok value_in _).1.1;
    simpl; destruct Hst as [-> _]; done.
Qed.

Lemma first_resumption_parks (w : World) :
  well_formed w →
  ∃ w2, wrapper_resume original NotStarted (Send VNone) w
        = iteration original (next_handle w) (gstart original) true VNone w2 ∧
    handles_allocated w2 ∧ is_Some (_contexts w2 !! next_handle w).
Proof.
  intros [Ha Hs]. destruct (_get_stack_registered w Hs) as [s Hstack].
  destruct (init_stack_stores (next_handle w) (new_object w).2 s Hstack)
    as (w2 & Hinit & _).
  exists w2. split; [by apply wrapper_resume_first|].
  destruct (init_stack_fresh w w2 Ha Hinit) as (Ha2 & _ & s' & _ & Hreg).
  split; [done|by exists s'].
Qed.

Lemma feed_simulates_parked (ins : list resume) :
  ∀ (gen : handle) (st : gstate original) (w w0 : World),
    handles_allocated w → is_Some (_contexts w !! gen) → well_formed w0 →
    (feed (wrapper_resume original) ins (AtYield gen st) w).1.1
    = reported <$> (feed (gresume original) ins st w0).1.1.
Proof.
  induction ins as [|r ins IH]; intros gen st w w0 Hw Hreg Hw0; [done|].
  cbn [feed]. rewrite wrapper_resume_parked.
  destruct (iteration_simulates gen st (pending r).1 (pending r).2 w w0
              Hw Hreg Hw0) as (Hres & Ha & Hreg').
  pose proof (deliver_well_formed st (pending r).1 (pending r).2 w0 Hw0)
    as Hw0'.
  rewrite deliver_pending in Hres, Hw0'.
  destruct (iteration original gen st _ _ w) as [[o ws'] w'].
  destruct (gresume original st r w0) as [[o0 st0] w0'].
  simpl in *. injection Hres as -> ->.
  destruct o0 as [v| |]; simpl; try done.
  specialize (IH gen st0 w' w0' Ha Hreg' Hw0').
  destruct (feed (wrapper_resume original) ins _ w') as [[os ws''] w''].
  destruct (feed (gresume original) ins st0 w0') as [[os0 st0'] w0''].
  simpl in *. by rewrite IH.
Qed.

Lemma feed_simulates (ins : list resume) (w w0 : World) :
  well_formed w → well_formed w0 →
  (feed (wrapper_resume original) (Send VNone :: ins) NotStarted w).1.1
  = reported <$>
      (feed (gresume original) (Send VNone :: ins) (gstart original) w0).1.1.
Proof.
  intros Hw Hw0.
  destruct (first_resumption_parks w Hw) as (w2 & Hfirst & Ha2 & Hreg2).
  cbn [feed]. rewrite Hfirst.
  destruct (iteration_simulates (next_handle w) (gstart original) true VNone
              w2 w0 Ha2 Hreg2 Hw0) as (Hres & Ha & Hreg').
  pose proof (deliver_well_formed (gstart original) true VNone w0 Hw0)
    as Hw0'.
  change (deliver original (gstart original) true VNone w0)
    with (gresume original (gstart original) (Send VNone) w0) in Hres, Hw0'.
  destruct (iteration original _ _ _ _ w2) as [[o ws'] w'].
  destruct (gresume original (gstart original) (Send VNone) w0)
    as [[o0 st0] w0'].
  simpl in *. injection Hres as -> ->.
  destruct o0 as [v| |]; simpl; try done.
  pose proof (feed_simulates_parked ins (next_handle w) st0 w' w0'
                Ha Hreg' Hw0') as IH.
  destruct (feed (wrapper_resume original) ins _ w') as [[os ws''] w''].
  destruct (feed (gresume original) ins st0 w0') as [[os0 st0'] w0''].
  simpl in *. by rewrite IH.
Qed.

End Simulation.

Lemma actor_insensitive : context_insensitive actor.
Proof.
  intros pc r w w' Hw Hw'. simpl.
  assert ((actor_resume ActorStart (Send VNone) w).1
          = (actor_resume ActorStart (Send VNone) w').1) as Hpush.
  { cbn [actor_resume]. unfold push, slot_registered, Stack in *.
    destruct (_current_generator w) as [g|] eqn:Hg;
      destruct (_current_generator w') as [g'|] eqn:Hg'; try done.
    - destruct (Hw g eq_refl) as [x Hx].
      destruct (Hw' g' eq_refl) as [x' Hx']. by rewrite Hx, Hx'.
    - destruct (Hw g eq_refl) as [x Hx]. by rewrite Hx.
    - destruct (Hw' g' eq_refl) as [x' Hx']. by rewrite Hx'. }
  destruct pc, r; try done; exact Hpush.
Qed.

Section KeptRuns.
Context (original : generator_function).
Context (Hkeeps : keeps_registered original).
Context (Hins : context_insensitive original).

Lemma deliver_keeps (st : gstate original) (ok : bool) (value_in : pyval)
    (w : World) :
  _current_generator (deliver original st ok value_in w).2
    = _current_generator w ∧
  ∀ h, is_Some (_contexts w !! h) →
       is_Some (_contexts (deliver original st ok value_in w).2 !! h).
Proof.
  unfold deliver. destruct ok; [apply Hkeeps|].
  destruct value_in; first [done | apply Hkeeps].
Qed.

Lemma deliver_same (st : gstate original) (ok : bool) (value_in : pyval)
    (w w' : World) :
  slot_registered w → slot_registered w' →
  (deliver original st ok value_in w).1
  = (deliver original st ok value_in w').1.
Proof.
  intros Hw Hw'. unfold deliver. destruct ok; [by apply Hins|].
  destruct value_in; try done. by apply Hins.
Qed.

Lemma deliver_slot_registered (st : gstate original) (ok : bool)
    (value_in : pyval) (w : World) :
  slot_registered w →
  slot_registered (deliver original st ok value_in w).2.
Proof.
  intros Hw h Hh. destruct (deliver_keeps st ok value_in w) as [Hc Hp].
  rewrite Hc in Hh. by apply Hp, Hw.
Qed.

(** One loop turn against one step of the generator on its own, in any
    two worlds: the wrapper reports what the generator produced and is
    parked holding the generator's next state if that was a value; the
    generator is still registered afterwards. *)
Lemma iteration_follows (gen : handle) (st : gstate original) (ok : bool)
    (value_in : pyval) (w w0 : World) :
  is_Some (_contexts w !! gen) → slot_registered w0 →
  let d := deliver original st ok value_in w0 in
  let res := iteration original gen st ok value_in w in
  res.1 = (reported d.1.1,
           if is_yield d.1.1 then AtYield gen d.1.2 else Finished) ∧
  is_Some (_contexts res.2 !! gen).
Proof.
  intros Hreg Hw0 d res. subst d res.
  pose proof (activated_slot_registered gen w Hreg) as Hin.
  rewrite (deliver_same st ok value_in w0
             (set_current_generator (Some gen) w) Hw0 Hin).
  destruct (deliver_keeps st ok value_in
              (set_current_generator (Some gen) w)) as [Hc Hp].
  rewrite iteration_unfold. unfold with_body, log_yielded.
  destruct (deliver original st ok value_in _) as [[o st'] wb].
  simpl in *.
  destruct (Hp gen Hreg) as [s Hs].
  destruct o as [v| |]; simpl in *.
  - rewrite (Message_log_active _ wb gen s) by done. simpl.
    split; [done|]. by exists s.
  - split; [done|]. by exists s.
  - split; [done|]. by exists s.
Qed.

Lemma first_resumption_follows (w : World) :
  slot_registered w →
  ∃ w2, wrapper_resume original NotStarted (Send VNone) w
        = iteration original (next_handle w) (gstart original) true VNone w2 ∧
    is_Some (_contexts w2 !! next_handle w).
Proof.
  intros Hs. destruct (_get_stack_registered w Hs) as [s Hstack].
  destruct (init_stack_stores (next_handle w) (new_object w).2 s Hstack)
    as (w2 & Hinit & Hreg & _).
  exists w2. split; [by apply wrapper_resume_first|by exists s].
Qed.

Lemma forward_follows_parked (fuel : nat) :
  ∀ (gen : handle) (st : gstate original) (value_in : pyval) (w w0 : World),
    is_Some (_contexts w !! gen) → slot_registered w0 →
    (forward (wrapper_resume original) fuel value_in (AtYield gen st) w).1
    = ((forward (gresume original) fuel value_in st w0).1.1,
       reported <$> (forward (gresume original) fuel value_in st w0).1.2).
Proof.
  induction fuel as [|fuel IH]; intros gen st value_in w w0 Hreg Hw0;
    [done|].
  cbn [forward]. rewrite wrapper_resume_parked.
  destruct (iteration_follows gen st true value_in w w0 Hreg Hw0)
    as (Hres & Hreg').
  pose proof (deliver_slot_registered st true value_in w0 Hw0) as Hw0'.
  change (deliver original st true value_in w0)
    with (gresume original st (Send value_in) w0) in Hres, Hw0'.
  simpl pending.
  destruct (iteration original gen st _ _ w) as [[o ws'] w'].
  destruct (gresume original st (Send value_in) w0) as [[o0 st0] w0'].
  simpl in *. injection Hres as -> ->.
  destruct o0 as [v| |]; simpl; try done.
  specialize (IH gen st0 v w' w0' Hreg' Hw0').
  destruct (forward (wrapper_resume original) fuel v _ w') as [[vs fin] w''].
  destruct (forward (gresume original) fuel v st0 w0') as [[vs0 fin0] w0''].
  simpl in *. by injection IH as -> ->.
Qed.

Lemma forward_follows (fuel : nat) (w w0 : World) :
  slot_registered w → slot_registered w0 →
  (forward (wrapper_resume original) fuel VNone NotStarted w).1
  = ((forward (gresume original) fuel VNone (gstart original) w0).1.1,
     reported <$>
       (forward (gresume original) fuel VNone (gstart original) w0).1.2).
Proof.
  intros Hw Hw0. destruct fuel as [|fuel]; [done|].
  destruct (first_resumption_follows w Hw) as (w2 & Hfirst & Hreg2).
  cbn [forward]. rewrite Hfirst.
  destruct (iteration_follows (next_handle w) (gstart original) true VNone
              w2 w0 Hreg2 Hw0) as (Hres & Hreg').
  pose proof (deliver_slot_registered (gstart original) true VNone w0 Hw0)
    as Hw0'.
  change (deliver original (gstart original) true VNone w0)
    with (gresume original (gstart original) (Send VNone) w0) in Hres, Hw0'.
  destruct (iteration original _ _ _ _ w2) as [[o ws'] w'].
  destruct (gresume original (gstart original) (Send VNone) w0)
    as [[o0 st0] w0'].
  simpl in *. injection Hres as -> ->.
  destruct o0 as [v| |]; simpl; try done.
  pose proof (forward_follows_parked fuel (next_handle w) st0 v w' w0'
                Hreg' Hw0') as IH.
  destruct (forward (wrapper_resume original) fuel v _ w') as [[vs fin] w''].
  destruct (forward (gresume original) fuel v st0 w0') as [[vs0 fin0] w0''].
  simpl in *. by injection IH as -> ->.
Qed.
End KeptRuns.




(** C5: a wrapper parked at its yield and resumed with [r] steps the
    generator, in the state it was suspended in and with itself active,
    with exactly [r]: [send] for a value and [throw] of the same exception
    for an exception.  Hence, for a generator that respects the registry
    and whose values do not depend on the process state, any sequence of
    value and exception resumptions gives through the wrapper the
    outcomes it gives when delivered to the generator directly: an
    exception injected after the k-th yielded value arrives at the k-th
    suspension point. *)
Theorem error_forwarding (original : generator_function) :
  (∀ (gen : handle) (st : gstate original) (r : resume) (w : World),
     deliver original st (pending r).1 (pending r).2
       = gresume original st r ∧
     wrapper_resume original (AtYield gen st) r w =
     after_with original gen
       (log_yielded original
          (gresume original st r (set_current_generator (Some gen) w))).1
       (set_current_generator (_current_generator w)
          (log_yielded original
             (gresume original st r
                (set_current_generator (Some gen) w))).2)) ∧
  (respects original → context_insensitive original →
   ∀ (ins : list resume) (w w0 : World),
     well_formed w → well_formed w0 →
     (feed (wrapper_resume original) (Send VNone :: ins) NotStarted w).1.1
     = reported <$>
         (feed (gresume original) (Send VNone :: ins)
            (gstart original) w0).1.1).
Proof.
  split.
  - intros gen st r w. split; [by destruct r|].
    rewrite wrapper_resume_parked, iteration_unfold. unfold with_body.
    by rewrite !deliver_pending.
  - intros Hresp Hins ins w w0. by apply feed_simulates.
Qed.

Lemma error_forwarding_witness :
  (feed (wrapper_resume scenario)
     [Send VNone; Send (VInt 1); Throw (Exc "boom")] NotStarted
     (set_main_stack ["other"] (new_world ["root"]))).1.1
  = reported <$> [Yielded (VInt 1); Yielded (VInt 2); Raised (Exc "boom")].
Proof.
  apply (proj2 (error_forwarding scenario) scenario_respects
           scenario_insensitive [Send (VInt 1); Throw (Exc "boom")]
           (set_main_stack ["other"] (new_world ["root"]))
           (new_world ["root"])).
  - apply (new_world_well_formed ["other"]).
  - apply new_world_well_formed.
Defined.

(** ** Nesting *)

Lemma two_generators_allocated (cur : option handle) (ambient : Stack) :
  handles_allocated
    (mkWorld (<[ 1 := ["other"] ]> {[ 0 := ["root"] ]}) cur ambient [] 2).
Proof.
  intros h [x Hx]. simpl in *.
  apply lookup_insert_Some in Hx as [[<- _]|[_ Hx]]; [lia|].
  apply lookup_singleton_Some in Hx as [<- _]. lia.
Qed.

Lemma actor_changes_current_only : changes_current_only actor.
Proof.
  intros pc r w Hw. simpl.
  assert (handles_allocated (actor_resume ActorStart (Send VNone) w).2 ∧
          _current_generator (actor_resume ActorStart (Send VNone) w).2
            = _current_generator w ∧
          ∀ h s, _current_generator w ≠ Some h →
                 _contexts w !! h = Some s →
                 _contexts (actor_resume ActorStart (Send VNone) w).2 !! h
                 = Some s) as Hpush.
  { cbn [actor_resume]. unfold push.
    destruct (_current_generator w) as [g|] eqn:Hg; [|done].
    destruct (_contexts w !! g) as [stack|] eqn:Hs; [|done]. simpl.
    split; [|split; [done|]].
    - intros h. simpl. destruct (decide (g = h)) as [<-|Hne].
      + intros _. apply Hw. by eexists.
      + rewrite lookup_insert_ne by done. apply Hw.
    - intros h s Hne Hh. rewrite lookup_insert_ne; [done|congruence]. }
  destruct pc, r; try done; exact Hpush.
Qed.

Section Isolation.
Context (original : generator_function).
Context (Hown : changes_current_only original).

Lemma deliver_changes_current_only (st : gstate original) (ok : bool)
    (value_in : pyval) (w : World) :
  handles_allocated w →
  handles_allocated (deliver original st ok value_in w).2 ∧
  _current_generator (deliver original st ok value_in w).2
    = _current_generator w ∧
  ∀ h s, _current_generator w ≠ Some h → _contexts w !! h = Some s →
         _contexts (deliver original st ok value_in w).2 !! h = Some s.
Proof.
  intros Hw. unfold deliver. destruct ok; [by apply Hown|].
  destruct value_in; first [done | by apply Hown].
Qed.

(** A loop turn for [gen] leaves the stack of every other generator as it
    was: the body runs with [gen] active, so a body that changes only the
    current stack cannot reach theirs. *)
Lemma iteration_isolates (gen : handle) (st : gstate original) (ok : bool)
    (value_in : pyval) (w : World) :
  handles_allocated w →
  handles_allocated (iteration original gen st ok value_in w).2 ∧
  _current_generator (iteration original gen st ok value_in w).2
    = _current_generator w ∧
  ∀ h s, h ≠ gen → _contexts w !! h = Some s →
         _contexts (iteration original gen st ok value_in w).2 !! h = Some s.
Proof.
  intros Hw. rewrite iteration_unfold, after_with_world.
  destruct (deliver_changes_current_only st ok value_in
              (set_current_generator (Some gen) w) Hw) as (Ha & _ & Hr).
  unfold with_body, log_yielded.
  destruct (deliver original st ok value_in _) as [[o st'] w1].
  simpl in Ha, Hr.
  assert (∀ wx, next_handle wx = next_handle w1 →
                _contexts wx = _contexts w1 →
                let w' := set_current_generator (_current_generator w) wx in
                handles_allocated w' ∧
                _current_generator w' = _current_generator w ∧
                ∀ h s, h ≠ gen → _contexts w !! h = Some s →
                       _contexts w' !! h = Some s) as Hkeep.
  { intros wx Hn Hc. split; [|split; [done|]].
    - intros h. simpl. rewrite Hn, Hc. apply Ha.
    - intros h s Hne Hh. simpl. rewrite Hc. apply Hr; [congruence|done]. }
  destruct o; simpl; try by apply Hkeep.
  destruct (Message_log "yielded" w1) as [w2|] eqn:Hlog; simpl;
    [|by apply Hkeep].
  apply Message_log_frame in Hlog as (_ & Hn & Hc). by apply Hkeep.
Qed.

(** One resumption of the wrapper leaves the slot as it found it and the
    stack of every generator other than its own as it was. *)
Lemma wrapper_isolates (ws : wrapper_state original) (r : resume)
    (w : World) :
  handles_allocated w →
  handles_allocated (wrapper_resume original ws r w).2 ∧
  _current_generator (wrapper_resume original ws r w).2
    = _current_generator w ∧
  ∀ h s, match ws with AtYield gen _ => h ≠ gen | _ => True end →
         _contexts w !! h = Some s →
         _contexts (wrapper_resume original ws r w).2 !! h = Some s.
Proof.
  intros Hw. destruct ws as [|gen st|].
  - destruct r as [[]|]; try done. simpl.
    destruct (init_stack _ _) as [w2|] eqn:Hinit.
    + destruct (init_stack_fresh w w2 Hw Hinit) as (Hw2 & [Hc2 Hf2] & _).
      destruct (iteration_isolates (next_handle w) (gstart original)
                  true VNone w2 Hw2) as (Ha & Hc & Hr).
      split; [done|]. split; [congruence|].
      intros h s _ Hh. apply Hr; [|by apply Hf2].
      intros ->. assert (next_handle w < next_handle w); [|lia].
      apply Hw. by eexists.
    + simpl. split; [|done].
      intros h Hh. specialize (Hw h Hh). simpl. lia.
  - rewrite wrapper_resume_parked. by apply iteration_isolates.
  - by destruct r.
Qed.
End Isolation.



(** ** The scenarios of the specification, run *)

(** The ambient stack is ["root"] when the wrapper is first resumed and
    ["other"] at each later resumption: "A" and "B" are recorded under
    ["root"], the caller sees 1, 2 and then completion, without the
    payload "done". *)
Example concrete_scenario :
  let '(o1, ws1, w1) :=
    wrapper_resume scenario NotStarted (Send VNone) (new_world ["root"]) in
  let '(o2, ws2, w2) :=
    wrapper_resume scenario ws1 (Send (VInt 1))
      (set_main_stack ["other"] w1) in
  let '(o3, ws3, w3) :=
    wrapper_resume scenario ws2 (Send (VInt 2))
      (set_main_stack ["other"] w2) in
  [o1; o2; o3] = [Yielded (VInt 1); Yielded (VInt 2); Completed VNone] ∧
  messages w3 = [("A", ["root"]); ("yielded", ["root"]);
                 ("B", ["root"]); ("yielded", ["root"])] ∧
  _current_generator w3 = None ∧
  _get_stack w3 = Ok ["other"].
Proof. repeat split; reflexivity. Qed.

(** A decorated generator started under ["other"] and then driven, one
    step, from inside a decorated generator started under ["root"]:
    each message is attributed to the stack of the generator that logged
    it, before and after the inner step. *)
Example nested_scenario :
  let '(_, inner, w1) :=
    wrapper_resume scenario NotStarted (Send VNone) (new_world ["other"]) in
  let '(o, _, w2) :=
    wrapper_resume (relay scenario inner) NotStarted (Send VNone)
      (set_main_stack ["root"] w1) in
  o = Yielded (VInt 2) ∧
  messages w2 = [("A", ["other"]); ("yielded", ["other"]);
                 ("outer-before", ["root"]);
                 ("B", ["other"]); ("yielded", ["other"]);
                 ("outer-after", ["root"]); ("yielded", ["root"])] ∧
  _current_generator w2 = None.
Proof. repeat split; reflexivity. Qed.

(** * Further properties *)

(** ** Splitting texts *)

Lemma split_1_without (sep : ascii) (s : string) :
  str_contains sep s = false → split_1 sep s = [s].
Proof.
  induction s as [|c s IH]; simpl; [done|].
  destruct (Ascii.eqb c sep); [done|]. intros Hs. by rewrite IH.
Qed.

Lemma split_1_at (sep : ascii) (a b : string) :
  str_contains sep a = false →
  split_1 sep (a +:+ String sep b) = [a; b].
Proof.
  induction a as [|c a IH]; simpl.
  - by rewrite Ascii.eqb_refl.
  - destruct (Ascii.eqb c sep); [done|]. intros Ha. by rewrite IH.
Qed.

(** The two shapes of [s.split(sep, 1)]. *)
Lemma split_1_shape (sep : ascii) (s : string) :
  (str_contains sep s = false ∧ split_1 sep s = [s]) ∨
  (∃ a b, s = a +:+ String sep b ∧ str_contains sep a = false ∧
          split_1 sep s = [a; b]).
Proof.
  induction s as [|c s IH]; simpl; [by left|].
  destruct (Ascii.eqb c sep) eqn:Hc.
  - right. apply Ascii.eqb_eq in Hc as ->. by exists EmptyString, s.
  - destruct IH as [[Hs ->]|(a & b & -> & Ha & ->)]; [by left|].
    right. exists (String c a), b. simpl. by rewrite Hc.
Qed.

Lemma split_without (sep : ascii) (s : string) :
  str_contains sep s = false → split sep s = [s].
Proof.
  induction s as [|c s IH]; simpl; [done|].
  destruct (Ascii.eqb c sep); [done|]. intros Hs. by rewrite IH.
Qed.

Lemma split_at (sep : ascii) (a b : string) :
  str_contains sep a = false →
  split sep (a +:+ String sep b) = a :: split sep b.
Proof.
  induction a as [|c a IH]; simpl.
  - by rewrite Ascii.eqb_refl.
  - destruct (Ascii.eqb c sep); [done|]. intros Ha. by rewrite IH.
Qed.

Lemma str_contains_app (c : ascii) (a b : string) :
  str_contains c (a +:+ b) = str_contains c a || str_contains c b.
Proof.
  induction a as [|c' a IH]; simpl; [done|].
  by destruct (Ascii.eqb c' c).
Qed.

Lemma forallb_is_ascii_app (a b : string) :
  forallb is_ascii (list_ascii_of_string (a +:+ b))
  = forallb is_ascii (list_ascii_of_string a)
    && forallb is_ascii (list_ascii_of_string b).
Proof.
  induction a as [|c a IH]; simpl; [done|].
  rewrite IH. by destruct (is_ascii c).
Qed.

Lemma decode_ascii_ok (s : string) :
  forallb is_ascii (list_ascii_of_string s) = true → decode_ascii s = Ok s.
Proof. unfold decode_ascii. by intros ->. Qed.

Lemma append_empty_r (s : string) : s +:+ EmptyString = s.
Proof.
  induction s as [|c s IH]; [done|].
  change (String c (s +:+ EmptyString) = String c s). by rewrite IH.
Qed.

Lemma append_assoc (a b c : string) : (a +:+ b) +:+ c = a +:+ (b +:+ c).
Proof.
  induction a as [|x a IH]; [done|].
  change (String x ((a +:+ b) +:+ c) = String x (a +:+ (b +:+ c))).
  by rewrite IH.
Qed.

Lemma split_arguments (args : list string) :
  ∀ path_name,
    str_contains colon path_name = false →
    Forall (λ a, str_contains colon a = false) args →
    split colon (path_name +:+ arguments_text args) = path_name :: args.
Proof.
  induction args as [|a args IH]; intros path_name Hp Hargs;
    cbn [arguments_text].
  - rewrite append_empty_r. by apply split_without.
  - inversion_clear Hargs as [|? ? Ha Hrest].
    rewrite split_at by done. by rewrite IH.
Qed.

(** ** [_get_arg] *)

Lemma dict_pairs (pairs : list (string * string)) :
  ∀ acc,
    Forall (λ kv : string * string, str_contains equals kv.1 = false) pairs →
    dict (split_1 equals <$> (argument <$> pairs)) acc
    = Ok (foldl (λ m (kv : string * string), <[kv.1 := kv.2]> m) acc pairs).
Proof.
  induction pairs as [|[k v] pairs IH]; intros acc Hkeys; simpl; [done|].
  inversion_clear Hkeys as [|? ? Hk Hrest]. simpl in Hk.
  unfold argument at 1. simpl. rewrite split_1_at by done. by apply IH.
Qed.

Lemma dict_bare (args : list string) :
  ∀ acc,
    Exists (λ a, str_contains equals a = false) args →
    dict (split_1 equals <$> args) acc = Err ValueError.
Proof.
  induction args as [|a args IH]; intros acc Hbare; [by inversion Hbare|].
  simpl.
  destruct (split_1_shape equals a) as [[Ha ->]|(k & v & -> & Hk & ->)];
    [done|].
  apply IH. inversion_clear Hbare as [? ? Ha|]; [|done].
  rewrite str_contains_app in Ha. simpl in Ha.
  by destruct (str_contains equals k).
Qed.

Lemma foldl_insert_lookup (pairs : list (string * string)) :
  ∀ (acc : gmap string string) (name : string),
    foldl (λ m (kv : string * string), <[kv.1 := kv.2]> m) acc pairs !! name
    = match (list_to_map (reverse pairs) : gmap string string) !! name with
      | Some v => Some v
      | None => acc !! name
      end.
Proof.
  induction pairs as [|[k v] pairs IH]; intros acc name; simpl.
  - by rewrite lookup_empty.
  - rewrite IH, reverse_cons, list_to_map_app, lookup_union. simpl.
    destruct (list_to_map (reverse pairs) !! name) as [x|]; simpl;
      [by rewrite union_Some_l|].
    rewrite (left_id None _). rewrite insert_empty.
    destruct (decide (k = name)) as [->|Hne].
    + by rewrite lookup_insert_eq, lookup_singleton_eq.
    + rewrite lookup_insert_ne, lookup_singleton_ne by done.
      by destruct (acc !! name).
Qed.

Lemma _get_arg_pairs (arg_name : string) (default : Z)
    (pairs : list (string * string)) :
  Forall (λ kv : string * string, str_contains equals kv.1 = false) pairs →
  _get_arg arg_name default (argument <$> pairs)
  = Ok (chosen arg_name default pairs).
Proof.
  intros Hkeys. unfold _get_arg, chosen. rewrite dict_pairs by done.
  rewrite foldl_insert_lookup, lookup_empty.
  by destruct (list_to_map (reverse pairs) !! arg_name).
Qed.

(** [_get_arg]: when every argument has the form name=value, the answer
    is the value of the last argument with the wanted name, cut at the
    first "=" only, or the default when there is none; when some argument
    has no "=", the call raises ValueError whatever the wanted name. *)
Theorem _get_arg_last_wins (arg_name : string) (default : Z) :
  (∀ pairs : list (string * string),
     Forall (λ kv : string * string, str_contains equals kv.1 = false)
       pairs →
     _get_arg arg_name default (argument <$> pairs)
     = Ok (match (list_to_map (reverse pairs) : gmap string string)
                   !! arg_name with
           | Some text => Given text
           | None => Default default
           end)) ∧
  (∀ args : list string,
     Exists (λ a, str_contains equals a = false) args →
     _get_arg arg_name default args = Err ValueError).
Proof.
  split.
  - intros pairs Hkeys. by rewrite _get_arg_pairs.
  - intros args Hbare. unfold _get_arg. by rewrite dict_bare.
Qed.

Lemma _get_arg_last_wins_witness :
  _get_arg "max_rotated_files" 10
    (argument <$> [("max_rotated_files", "1"); ("rotate_length", "7");
                   ("max_rotated_files", "2=3")])
    = Ok (Given "2=3") ∧
  _get_arg "max_rotated_files" 10 ["max_rotated_files=1"; "junk"]
    = Err ValueError.
Proof.
  split.
  - apply (proj1 (_get_arg_last_wins "max_rotated_files" 10)
             [("max_rotated_files", "1"); ("rotate_length", "7");
              ("max_rotated_files", "2=3")]).
    repeat constructor.
  - apply (proj2 (_get_arg_last_wins "max_rotated_files" 10)
             ["max_rotated_files=1"; "junk"]).
    apply Exists_cons_tl, Exists_cons_hd. reflexivity.
Defined.

(** ** [parse] and [_parse_file] *)

Lemma append_inj_l (a x y : string) : a +:+ x = a +:+ y → x = y.
Proof.
  induction a as [|c a IH]; [done|].
  change (String c (a +:+ x) = String c (a +:+ y) → x = y).
  intros [= H]. by apply IH.
Qed.

Lemma chosen_absent (arg_name : string) (default : Z)
    (pairs : list (string * string)) :
  Forall (λ kv : string * string, kv.1 ≠ arg_name) pairs →
  chosen arg_name default pairs = Default default.
Proof.
  intros Hkeys. unfold chosen.
  assert ((list_to_map (reverse pairs) : gmap string string) !! arg_name
          = None) as ->; [|done].
  apply not_elem_of_list_to_map. rewrite list_elem_of_fmap.
  intros ([k v] & -> & Hin). rewrite elem_of_reverse in Hin.
  rewrite Forall_forall in Hkeys. by apply (Hkeys (k, v)).
Qed.

Section ParserProperties.
Context (py_int : string → option Z).

Lemma parse_file_kind (rest : string) :
  forallb is_ascii (list_ascii_of_string rest) = true →
  parse py_int ("file:" +:+ rest) = _parse_file py_int "file" rest.
Proof.
  intros Hascii. unfold parse.
  rewrite decode_ascii_ok by by rewrite forallb_is_ascii_app, Hascii.
  change ("file:" +:+ rest) with ("file" +:+ String colon rest).
  by rewrite split_1_at.
Qed.

Lemma _parse_file_arguments (kind path_name : string) (args : list string) :
  str_contains backslash (path_name +:+ arguments_text args) = false →
  str_contains colon path_name = false →
  path_name ≠ "-" →
  Forall (λ a, str_contains colon a = false) args →
  _parse_file py_int kind (path_name +:+ arguments_text args) =
  match _get_arg "rotate_length" (1024 * 1024 * 1024) args with
  | Err e => Err e
  | Ok a =>
      match int py_int a with
      | Err e => Err e
      | Ok rotate_length =>
          match _get_arg "max_rotated_files" 10 args with
          | Err e => Err e
          | Ok b =>
              match int py_int b with
              | Err e => Err e
              | Ok max_rotated_files =>
                  Ok (LogFile path_name rotate_length max_rotated_files)
              end
          end
      end
  end.
Proof.
  intros Hback Hcolon Hdash Hargs. unfold _parse_file.
  rewrite Hback, split_arguments by done.
  by apply String.eqb_neq in Hdash as ->.
Qed.

(** [parse] accepts nothing but file descriptions: a description that
    parses is made of ASCII bytes, starts with "file:", and has no
    backslash after that. *)
Theorem parse_accepts_only_file (description : string)
    (destination : file_source) :
  parse py_int description = Ok destination →
  forallb is_ascii (list_ascii_of_string description) = true ∧
  ∃ arg_text, description = "file:" +:+ arg_text ∧
              str_contains backslash arg_text = false.
Proof.
  unfold parse, decode_ascii.
  destruct (forallb is_ascii _); [|done]. intros Hparse. split; [done|].
  destruct (split_1_shape colon description)
    as [[_ Hone]|(kind & args & -> & _ & Htwo)].
  { by rewrite Hone in Hparse. }
  rewrite Htwo in Hparse. unfold getattr in Hparse.
  destruct (String.eqb ("_parse_" +:+ kind) "_parse_file") eqn:Hkind;
    [|done].
  apply String.eqb_eq in Hkind.
  apply (append_inj_l "_parse_" kind "file") in Hkind as ->.
  exists args. split; [done|].
  unfold _parse_file in Hparse.
  by destruct (str_contains backslash args).
Qed.

(** For the path name "-" the arguments are never looked at: whatever
    follows "file:-:", well-formed or not, the result is [stdout], as
    long as it is ASCII without a backslash. *)
Theorem parse_stdout_ignores_arguments (tail : string) :
  forallb is_ascii (list_ascii_of_string tail) = true →
  str_contains backslash tail = false →
  parse py_int "file:-" = Ok Stdout ∧
  parse py_int ("file:-:" +:+ tail) = Ok Stdout.
Proof.
  intros Hascii Hback. split; [done|].
  change ("file:-:" +:+ tail) with ("file:" +:+ ("-:" +:+ tail)).
  rewrite parse_file_kind by by rewrite forallb_is_ascii_app, Hascii.
  unfold _parse_file.
  rewrite str_contains_app, Hback.
  change ("-:" +:+ tail) with ("-" +:+ String colon tail).
  by rewrite split_at.
Qed.

(** A description "file:" path ":" name=value ":" name=value ... with
    well-formed arguments: the rotation length and the number of rotated
    files are [int] of the value of the last argument named
    "rotate_length", respectively "max_rotated_files", or 1024^3 and 10
    when there is none; a value [int] refuses makes [parse] raise
    ValueError. *)
Theorem parse_file_arguments (path_name : string)
    (pairs : list (string * string)) :
  let rest := path_name +:+ arguments_text (argument <$> pairs) in
  forallb is_ascii (list_ascii_of_string rest) = true →
  str_contains backslash rest = false →
  str_contains colon path_name = false →
  path_name ≠ "-" →
  Forall (λ kv : string * string,
            str_contains equals kv.1 = false ∧
            str_contains colon (argument kv) = false) pairs →
  parse py_int ("file:" +:+ rest) =
  match int py_int (chosen "rotate_length" (1024 * 1024 * 1024) pairs) with
  | Err e => Err e
  | Ok rotate_length =>
      match int py_int (chosen "max_rotated_files" 10 pairs) with
      | Err e => Err e
      | Ok max_rotated_files =>
          Ok (LogFile path_name rotate_length max_rotated_files)
      end
  end.
Proof.
  intros rest Hascii Hback Hcolon Hdash Hpairs. subst rest.
  rewrite parse_file_kind by done.
  rewrite _parse_file_arguments; [|done..|].
  2: { apply Forall_fmap. eapply Forall_impl; [exact Hpairs|].
       by intros kv [_ H]. }
  assert (Forall (λ kv : string * string, str_contains equals kv.1 = false)
            pairs) as Hkeys.
  { eapply Forall_impl; [exact Hpairs|]. by intros kv [H _]. }
  by rewrite !_get_arg_pairs.
Qed.

(** Arguments with other names are ignored, whatever their values: with
    no argument named "rotate_length" or "max_rotated_files" the result
    is the defaults, 1024^3 and 10.  The name "rotated_length" is such a
    name. *)
Theorem parse_ignores_other_names (path_name : string)
    (pairs : list (string * string)) :
  let rest := path_name +:+ arguments_text (argument <$> pairs) in
  forallb is_ascii (list_ascii_of_string rest) = true →
  str_contains backslash rest = false →
  str_contains colon path_name = false →
  path_name ≠ "-" →
  Forall (λ kv : string * string,
            str_contains equals kv.1 = false ∧
            str_contains colon (argument kv) = false) pairs →
  Forall (λ kv : string * string,
            kv.1 ≠ "rotate_length" ∧ kv.1 ≠ "max_rotated_files") pairs →
  parse py_int ("file:" +:+ rest)
  = Ok (LogFile path_name (1024 * 1024 * 1024) 10).
Proof.
  intros rest Hascii Hback Hcolon Hdash Hpairs Hother. subst rest.
  rewrite parse_file_kind by done.
  rewrite _parse_file_arguments; [|done..|].
  2: { apply Forall_fmap. eapply Forall_impl; [exact Hpairs|].
       by intros kv [_ H]. }
  assert (Forall (λ kv : string * string, str_contains equals kv.1 = false)
            pairs) as Hkeys.
  { eapply Forall_impl; [exact Hpairs|]. by intros kv [H _]. }
  rewrite !_get_arg_pairs by done.
  rewrite !chosen_absent; [done|..];
    (eapply Forall_impl; [exact Hother|]; by intros kv [? ?]).
Qed.

(** One argument without "=" makes a file description fail with
    ValueError, whatever the other arguments are and whatever [int]
    accepts. *)
Theorem parse_rejects_bare_argument (path_name : string)
    (args : list string) :
  let rest := path_name +:+ arguments_text args in
  forallb is_ascii (list_ascii_of_string rest) = true →
  str_contains backslash rest = false →
  str_contains colon path_name = false →
  path_name ≠ "-" →
  Forall (λ a, str_contains colon a = false) args →
  Exists (λ a, str_contains equals a = false) args →
  parse py_int ("file:" +:+ rest) = Err ValueError.
Proof.
  intros rest Hascii Hback Hcolon Hdash Hargs Hbare. subst rest.
  rewrite parse_file_kind by done.
  rewrite _parse_file_arguments by done.
  unfold _get_arg. by rewrite dict_bare.
Qed.
End ParserProperties.

Lemma parse_accepts_only_file_witness :
  forallb is_ascii
    (list_ascii_of_string "file:/var/log/x:rotate_length=5") = true ∧
  ∃ arg_text, "file:/var/log/x:rotate_length=5" = "file:" +:+ arg_text ∧
              str_contains backslash arg_text = false.
Proof.
  apply (parse_accepts_only_file decimal "file:/var/log/x:rotate_length=5"
           (LogFile "/var/log/x" 5 10)).
  reflexivity.
Defined.

Lemma parse_stdout_ignores_arguments_witness :
  parse decimal "file:-" = Ok Stdout ∧
  parse decimal ("file:-:" +:+ "junk:=:rotate_length=none") = Ok Stdout.
Proof.
  apply (parse_stdout_ignores_arguments decimal "junk:=:rotate_length=none");
    reflexivity.
Defined.

Lemma parse_file_arguments_witness :
  parse decimal
    ("file:" +:+ ("/var/log/x" +:+
       arguments_text
         (argument <$> [("max_rotated_files", "1"); ("rotate_length", "5");
                        ("max_rotated_files", "2")])))
  = Ok (LogFile "/var/log/x" 5 2).
Proof.
  apply (parse_file_arguments decimal "/var/log/x"
           [("max_rotated_files", "1"); ("rotate_length", "5");
            ("max_rotated_files", "2")]);
    try reflexivity; [done|].
  repeat constructor.
Defined.

Lemma parse_ignores_other_names_witness :
  parse decimal
    ("file:" +:+ ("/var/log/x" +:+
       arguments_text (argument <$> [("rotated_length", "many")])))
  = Ok (LogFile "/var/log/x" (1024 * 1024 * 1024) 10).
Proof.
  apply (parse_ignores_other_names decimal "/var/log/x"
           [("rotated_length", "many")]);
    try reflexivity; [done| |].
  - repeat constructor.
  - repeat constructor; done.
Defined.

Lemma parse_rejects_bare_argument_witness :
  parse decimal
    ("file:" +:+ ("/var/log/x" +:+
       arguments_text ["rotate_length=5"; "junk"; "max_rotated_files=2"]))
  = Err ValueError.
Proof.
  apply (parse_rejects_bare_argument decimal "/var/log/x"
           ["rotate_length=5"; "junk"; "max_rotated_files=2"]);
    try reflexivity; [done| |].
  - repeat constructor.
  - apply Exists_cons_tl, Exists_cons_hd. reflexivity.
Defined.

(** ** [opt_eliot_destination] *)

Section OptionProperties.
Context (py_int : string → option Z).

Lemma opt_eliot_destination_ok (self : gmap string (list file_source))
    (description : string) (destination : file_source) :
  parse py_int description = Ok destination →
  opt_eliot_destination py_int self description
  = (Ok tt,
     <["destinations" := (default [] (self !! "destinations")
                          ++ [destination])%list]> self).
Proof.
  intros Hparse. unfold opt_eliot_destination. rewrite Hparse.
  destruct (self !! "destinations") as [l|] eqn:Hl; simpl.
  - by rewrite Hl.
  - by rewrite lookup_insert_eq, insert_insert_eq.
Qed.

(** Given several times, the option accumulates: after the descriptions
    [descriptions], all of which parse, the "destinations" list is the
    one there was before followed by their destinations in the order
    given, and the other options are untouched. *)
Theorem opt_eliot_destination_accumulates (descriptions : list string) :
  ∀ (destinations : list file_source)
    (self : gmap string (list file_source)),
    Forall2 (λ d destination, parse py_int d = Ok destination)
      descriptions destinations →
    let res := opt_eliot_destinations py_int self descriptions in
    res.1 = Ok tt ∧
    default [] (res.2 !! "destinations")
    = (default [] (self !! "destinations") ++ destinations)%list ∧
    ∀ k, k ≠ "destinations" → res.2 !! k = self !! k.
Proof.
  induction descriptions as [|d ds IH]; intros destinations self Hall res;
    subst res.
  - inversion_clear Hall. simpl. by rewrite app_nil_r.
  - inversion_clear Hall as [|? dest ? dests Hd Hds].
    cbn [opt_eliot_destinations].
    rewrite (opt_eliot_destination_ok self d dest Hd).
    set (self' := <["destinations" := _]> self).
    destruct (IH dests self' Hds) as (Hok & Hlist & Hother).
    split; [done|]. split.
    + rewrite Hlist. subst self'. rewrite lookup_insert_eq. simpl.
      by rewrite <- app_assoc.
    + intros k Hk. rewrite Hother by done. subst self'.
      by rewrite lookup_insert_ne.
Qed.

(** When the description does not parse, the exception comes out and no
    destination is added, but the options are not as they were: the key
    "destinations" now exists, with an empty list if it was missing
    before, because [setdefault] ran first. *)
Theorem opt_eliot_destination_failure (self : gmap string (list file_source))
    (description : string) (e : exn) :
  parse py_int description = Err e →
  let res := opt_eliot_destination py_int self description in
  res.1 = Err e ∧
  res.2 !! "destinations" = Some (default [] (self !! "destinations")) ∧
  ∀ k, k ≠ "destinations" → res.2 !! k = self !! k.
Proof.
  intros Hparse res. subst res. unfold opt_eliot_destination.
  rewrite Hparse. simpl. split; [done|].
  destruct (self !! "destinations") as [l|] eqn:Hl; simpl.
  - by rewrite Hl.
  - split; [by rewrite lookup_insert_eq|].
    intros k Hk. by rewrite lookup_insert_ne.
Qed.
End OptionProperties.

Lemma opt_eliot_destination_accumulates_witness :
  let self : gmap string (list file_source) :=
    {[ "destinations" := [Stdout] ]} in
  let res := opt_eliot_destinations decimal self
               ["file:/var/log/x:max_rotated_files=3"; "file:-"] in
  res.1 = Ok tt ∧
  default [] (res.2 !! "destinations")
  = (default [] (self !! "destinations")
     ++ [LogFile "/var/log/x" (1024 * 1024 * 1024) 3; Stdout])%list ∧
  ∀ k, k ≠ "destinations" → res.2 !! k = self !! k.
Proof.
  intros self.
  apply (opt_eliot_destination_accumulates decimal
           ["file:/var/log/x:max_rotated_files=3"; "file:-"]
           [LogFile "/var/log/x" (1024 * 1024 * 1024) 3; Stdout] self).
  repeat constructor.
Defined.

Lemma opt_eliot_destination_failure_witness :
  let self : gmap string (list file_source) := ∅ in
  let res := opt_eliot_destination decimal self "stdout" in
  res.1 = Err ValueError ∧
  res.2 !! "destinations" = Some (default [] (self !! "destinations")) ∧
  ∀ k, k ≠ "destinations" → res.2 !! k = self !! k.
Proof.
  intros self.
  apply (opt_eliot_destination_failure decimal self "stdout" ValueError).
  reflexivity.
Defined.

(** ** [_observe] *)

Section ObserverProperties.
Context {json : Type} (json_text : string → json).

(** The call of [Message.new] for a Twisted event is made with the
    event's fields except "log_time" and "log_logger" as keyword
    arguments, each with its value, and with the message type
    "eliot:twisted"; [_observe] gets as far as that call exactly when the
    event has a "log_time" and no field named "message_type" besides. *)
Theorem _observe_fields (flattened : gmap string json) :
  (∀ fields, _observe json_text flattened = Ok fields →
     is_Some (flattened !! "log_time") ∧
     fields !! "log_time" = None ∧
     fields !! "log_logger" = None ∧
     fields !! "message_type" = Some (json_text "eliot:twisted") ∧
     ∀ k, k ≠ "log_time" → k ≠ "log_logger" → k ≠ "message_type" →
          fields !! k = flattened !! k) ∧
  (is_Some (flattened !! "log_time") →
   flattened !! "message_type" = None →
   ∃ fields, _observe json_text flattened = Ok fields).
Proof.
  unfold _observe. split.
  - intros fields.
    destruct (flattened !! "log_time") as [t|] eqn:Ht; [|done].
    destruct (delete "log_logger" (delete "log_time" flattened)
                !! "message_type") eqn:Hm; [done|].
    intros [= <-]. split; [by eexists|].
    split; [by rewrite lookup_insert_ne, lookup_delete_ne, lookup_delete_eq|].
    split; [by rewrite lookup_insert_ne, lookup_delete_eq|].
    split; [by rewrite lookup_insert_eq|].
    intros k H1 H2 H3.
    by rewrite lookup_insert_ne, !lookup_delete_ne.
  - intros [t ->] Hm.
    rewrite !lookup_delete_ne, Hm by done. by eexists.
Qed.

(** An event without "log_time" makes [_observe] raise KeyError, even
    when it has everything else; an event with a "log_time" and a field
    named "message_type" makes it raise TypeError. *)
Theorem _observe_rejects (flattened : gmap string json) :
  (flattened !! "log_time" = None →
   _observe json_text flattened = Err KeyError) ∧
  (is_Some (flattened !! "log_time") →
   is_Some (flattened !! "message_type") →
   _observe json_text flattened = Err TypeError).
Proof.
  unfold _observe. split.
  - by intros ->.
  - intros [t ->] [m Hm]. by rewrite !lookup_delete_ne, Hm.
Qed.
End ObserverProperties.

Lemma _observe_fields_witness :
  ∃ fields,
    _observe VStr {[ "log_time" := VInt 7; "log_logger" := VNone;
                     "log_format" := VStr "hello" ]} = Ok fields ∧
    fields !! "log_time" = None ∧
    fields !! "log_logger" = None ∧
    fields !! "message_type" = Some (VStr "eliot:twisted") ∧
    fields !! "log_format" = Some (VStr "hello").
Proof.
  pose proof (_observe_fields VStr
                ({[ "log_time" := VInt 7; "log_logger" := VNone;
                    "log_format" := VStr "hello" ]} : gmap string pyval))
    as [Hfields Hexists].
  destruct Hexists as [fields Hok]; [by eexists|reflexivity|].
  exists fields. split; [exact Hok|].
  destruct (Hfields fields Hok) as (_ & H1 & H2 & H3 & H4).
  split; [exact H1|]. split; [exact H2|]. split; [exact H3|].
  rewrite H4 by done. reflexivity.
Defined.

Lemma _observe_rejects_witness :
  _observe VStr ({[ "log_format" := VStr "hello" ]} : gmap string pyval)
    = Err KeyError ∧
  _observe VStr ({[ "log_time" := VInt 7;
                    "message_type" := VStr "mine" ]} : gmap string pyval)
    = Err TypeError.
Proof.
  split.
  - apply (proj1 (_observe_rejects VStr {[ "log_format" := VStr "hello" ]})).
    reflexivity.
  - apply (proj2 (_observe_rejects VStr
                    {[ "log_time" := VInt 7;
                       "message_type" := VStr "mine" ]}));
      by eexists.
Defined.

(** ** Whole runs of the wrapper *)

Lemma set_main_stack_allocated (ambient : Stack) (w : World) :
  handles_allocated w → handles_allocated (set_main_stack ambient w).
Proof. done. Qed.

(** After one resumption the wrapper is parked on its own generator or
    finished: a registered generator that was not the wrapper's own is
    not its own afterwards. *)
Lemma wrapper_resume_own (original : generator_function)
    (ws : wrapper_state original) (r : resume) (w : World) (h : handle) :
  handles_allocated w → is_Some (_contexts w !! h) →
  match ws with AtYield gen _ => h ≠ gen | _ => True end →
  match (wrapper_resume original ws r w).1.2 with
  | AtYield gen _ => h ≠ gen
  | _ => True
  end.
Proof.
  intros Hw Hh Hother. destruct ws as [|gen st|].
  - destruct r as [[]|]; try done. simpl.
    destruct (init_stack _ _) as [w2|]; [|done].
    rewrite iteration_unfold. unfold after_with.
    destruct (with_body _ _ _ _ _).1.1; try done. simpl.
    specialize (Hw h Hh). lia.
  - rewrite wrapper_resume_parked, iteration_unfold. unfold after_with.
    by destruct (with_body _ _ _ _ _).1.1.
  - by destruct r.
Qed.

Lemma feed_ambient_isolates (original : generator_function)
    (Hown : changes_current_only original) (ins : list (Stack * resume)) :
  ∀ (ws : wrapper_state original) (w : World),
    handles_allocated w →
    let res := feed_ambient (wrapper_resume original) ins ws w in
    handles_allocated res.2 ∧
    _current_generator res.2 = _current_generator w ∧
    ∀ h s, match ws with AtYield gen _ => h ≠ gen | _ => True end →
           _contexts w !! h = Some s → _contexts res.2 !! h = Some s.
Proof.
  induction ins as [|[ambient r] ins IH]; intros ws w Hw res; subst res;
    [done|].
  cbn [feed_ambient].
  destruct (wrapper_isolates original Hown ws r (set_main_stack ambient w))
    as (Ha & Hc & Hr); [done|].
  pose proof (wrapper_resume_own original ws r (set_main_stack ambient w))
    as Hst.
  destruct (wrapper_resume original ws r (set_main_stack ambient w))
    as [[o ws'] w'].
  simpl in Ha, Hc, Hr, Hst.
  destruct o as [v| |]; simpl; try done.
  destruct (IH ws' w' Ha) as (Ha' & Hc' & Hr').
  destruct (feed_ambient (wrapper_resume original) ins ws' w')
    as [[os ws''] w''].
  simpl in *. split; [done|]. split; [congruence|].
  intros h s Hother Hs. apply Hr'; [|by apply Hr].
  apply Hst; [done|by eexists|done].
Qed.

(** Driving a decorated generator whose body changes no stack but that of
    the active generator, from any state of its wrapper, through any
    sequence of value and exception resumptions with any ambient stacks
    in between, leaves the active slot as it was and replaces the stack
    of no other generator: a generator other than the wrapper's own that
    was registered before the run and is registered after it has the
    stack it had. *)
Theorem run_keeps_registry (original : generator_function)
    (Hown : changes_current_only original) (ins : list (Stack * resume)) :
  ∀ (ws : wrapper_state original) (w : World),
    handles_allocated w →
    let res := feed_ambient (wrapper_resume original) ins ws w in
    handles_allocated res.2 ∧
    _current_generator res.2 = _current_generator w ∧
    ∀ h s s', match ws with AtYield gen _ => h ≠ gen | _ => True end →
              _contexts w !! h = Some s →
              _contexts res.2 !! h = Some s' → s' = s.
Proof.
  intros ws w Hw res.
  destruct (feed_ambient_isolates original Hown ins ws w Hw)
    as (Ha & Hc & Hr).
  split; [done|]. split; [done|].
  intros h s s' Hother Hs Hs'. subst res.
  rewrite (Hr h s Hother Hs) in Hs'. congruence.
Qed.

Lemma run_keeps_registry_witness :
  let w := mkWorld (<[ 1 := ["other"] ]> {[ 0 := ["root"] ]}) (Some 0)
             ["ambient"] [] 2 in
  let res := feed_ambient (wrapper_resume actor)
               [(["a"], Send VNone); (["b"], Send (VInt 1));
                (["c"], Throw (Exc "boom"))] NotStarted w in
  _contexts res.2 !! 2 = Some ["root"; "inner"] ∧
  handles_allocated res.2 ∧
  _current_generator res.2 = Some 0 ∧
  ∀ h s s', True → _contexts w !! h = Some s →
            _contexts res.2 !! h = Some s' → s' = s.
Proof.
  intros w. split; [reflexivity|].
  apply (run_keeps_registry actor actor_changes_current_only
           [(["a"], Send VNone); (["b"], Send (VInt 1));
            (["c"], Throw (Exc "boom"))] NotStarted w).
  apply two_generators_allocated.
Defined.

Lemma yields_yielded (v : pyval) (os : list outcome) :
  yields (Yielded v :: os) = S (yields os).
Proof. unfold yields. by rewrite filter_cons_True. Qed.

Section Runs.
Context (original : generator_function) (Hresp : respects original).

Lemma deliver_emits (Hemits : emits_under_current original)
    (st : gstate original) (ok : bool) (value_in : pyval) (w : World)
    (s : Stack) :
  _get_stack w = Ok s →
  ∃ types : list string,
    messages (deliver original st ok value_in w).2
    = (messages w ++ ((λ m, (m, s)) <$> types))%list.
Proof.
  intros Hs. unfold deliver. destruct ok; [by apply Hemits|].
  destruct value_in; try (exists []; simpl; by rewrite app_nil_r).
  by apply Hemits.
Qed.

Lemma deliver_silent (Hsilent : silent original)
    (st : gstate original) (ok : bool) (value_in : pyval) (w : World) :
  messages (deliver original st ok value_in w).2 = messages w.
Proof.
  unfold deliver. destruct ok; [by apply Hsilent|].
  destruct value_in; done.
Qed.

(** What one loop turn leaves for the next. *)
Lemma iteration_next (gen : handle) (s : Stack) (st : gstate original)
    (ok : bool) (value_in : pyval) (w : World) :
  handles_allocated w → _contexts w !! gen = Some s →
  let res := iteration original gen st ok value_in w in
  handles_allocated res.2 ∧ _contexts res.2 !! gen = Some s ∧
  (is_yield res.1.1 = true → ∃ st', res.1.2 = AtYield gen st').
Proof.
  intros Hw Hreg res. subst res.
  destruct (iteration_respects original Hresp gen st ok value_in w Hw)
    as [Ha [_ Hr]].
  split; [done|]. split; [by apply Hr|].
  rewrite iteration_unfold. unfold after_with.
  destruct (with_body original st ok value_in _).1 as [o st'].
  destruct o; simpl; try done. by eexists.
Qed.

Lemma iteration_emits (Hemits : emits_under_current original)
    (gen : handle) (s : Stack) (st : gstate original)
    (ok : bool) (value_in : pyval) (w : World) :
  handles_allocated w → _contexts w !! gen = Some s →
  ∃ evs, messages (iteration original gen st ok value_in w).2
         = (messages w ++ evs)%list ∧
         Forall (λ ev : Event, ev.2 = s) evs.
Proof.
  intros Hw Hreg.
  rewrite (iteration_active original Hresp gen s); [|done..].
  simpl. rewrite after_with_world.
  destruct (deliver_emits Hemits st ok value_in
              (set_current_generator (Some gen) w) s) as [types Htypes].
  { by apply _get_stack_active with gen. }
  simpl in Htypes.
  assert (Forall (λ ev : Event, ev.2 = s) ((λ m, (m, s)) <$> types))
    as Hall by by apply Forall_fmap, Forall_true.
  destruct (is_yield _); simpl; rewrite Htypes.
  - exists (((λ m, (m, s)) <$> types) ++ [("yielded", s)])%list.
    split; [by rewrite app_assoc|].
    apply Forall_app. split; [done|]. by repeat constructor.
  - by eexists.
Qed.

Lemma iteration_silent (Hsilent : silent original)
    (gen : handle) (s : Stack) (st : gstate original)
    (ok : bool) (value_in : pyval) (w : World) :
  handles_allocated w → _contexts w !! gen = Some s →
  messages (iteration original gen st ok value_in w).2
  = (messages w
     ++ if is_yield (iteration original gen st ok value_in w).1.1
        then [("yielded", s)] else [])%list.
Proof.
  intros Hw Hreg.
  rewrite (iteration_active original Hresp gen s); [|done..].
  simpl. rewrite after_with_world, after_with_outcome.
  pose proof (deliver_silent Hsilent st ok value_in
                (set_current_generator (Some gen) w)) as Hm.
  simpl in Hm.
  destruct (deliver original st ok value_in _).1.1 eqn:Ho; simpl;
    rewrite Hm; [done|by rewrite app_nil_r..].
Qed.

Lemma run_attribution_parked (Hemits : emits_under_current original)
    (s : Stack) (ins : list (Stack * resume)) :
  ∀ (gen : handle) (st : gstate original) (w : World),
    handles_allocated w → _contexts w !! gen = Some s →
    ∃ evs,
      messages (feed_ambient (wrapper_resume original) ins
                  (AtYield gen st) w).2
      = (messages w ++ evs)%list ∧
      Forall (λ ev : Event, ev.2 = s) evs.
Proof.
  induction ins as [|[ambient r] ins IH]; intros gen st w Hw Hreg.
  { exists []. simpl. by rewrite app_nil_r. }
  cbn [feed_ambient]. rewrite wrapper_resume_parked.
  destruct (iteration_emits Hemits gen s st (pending r).1 (pending r).2
              (set_main_stack ambient w)) as (evs & Hevs & Hall);
    [done..|].
  destruct (iteration_next gen s st (pending r).1 (pending r).2
              (set_main_stack ambient w)) as (Ha & Hreg' & Hnext);
    [done..|].
  destruct (iteration original gen st _ _ (set_main_stack ambient w))
    as [[o ws'] w'].
  simpl in *. destruct o as [v| |]; simpl; try by exists evs.
  destruct (Hnext eq_refl) as [st' ->].
  destruct (IH gen st' w' Ha Hreg') as (evs' & Hevs' & Hall').
  destruct (feed_ambient (wrapper_resume original) ins _ w')
    as [[os ws''] w''].
  simpl in *. exists (evs ++ evs')%list. split.
  - by rewrite Hevs', Hevs, app_assoc.
  - by apply Forall_app.
Qed.

Lemma run_markers_parked (Hsilent : silent original)
    (s : Stack) (ins : list (Stack * resume)) :
  ∀ (gen : handle) (st : gstate original) (w : World),
    handles_allocated w → _contexts w !! gen = Some s →
    let res := feed_ambient (wrapper_resume original) ins
                 (AtYield gen st) w in
    messages res.2
    = (messages w ++ replicate (yields res.1.1) ("yielded", s))%list.
Proof.
  induction ins as [|[ambient r] ins IH]; intros gen st w Hw Hreg res;
    subst res.
  { simpl. by rewrite app_nil_r. }
  cbn [feed_ambient]. rewrite wrapper_resume_parked.
  pose proof (iteration_silent Hsilent gen s st (pending r).1 (pending r).2
                (set_main_stack ambient w) Hw Hreg) as Hmsg.
  destruct (iteration_next gen s st (pending r).1 (pending r).2
              (set_main_stack ambient w)) as (Ha & Hreg' & Hnext);
    [done..|].
  destruct (iteration original gen st _ _ (set_main_stack ambient w))
    as [[o ws'] w'].
  simpl in *. destruct o as [v| |]; simpl in *; [|done..].
  destruct (Hnext eq_refl) as [st' ->].
  specialize (IH gen st' w' Ha Hreg').
  destruct (feed_ambient (wrapper_resume original) ins _ w')
    as [[os ws''] w''].
  simpl in *. rewrite IH, Hmsg. unfold yields.
  by rewrite <- app_assoc.
Qed.

Lemma first_resumption_registers (ambient : Stack) (w : World) (s : Stack) :
  handles_allocated w → _get_stack (set_main_stack ambient w) = Ok s →
  ∃ w2, wrapper_resume original NotStarted (Send VNone)
          (set_main_stack ambient w)
        = iteration original (next_handle w) (gstart original) true VNone w2 ∧
    handles_allocated w2 ∧ _contexts w2 !! next_handle w = Some s ∧
    messages w2 = messages w.
Proof.
  intros Hw Hs.
  destruct (init_stack_stores (next_handle w)
              (new_object (set_main_stack ambient w)).2 s Hs)
    as (w2 & Hinit & _).
  exists w2.
  split; [by apply (wrapper_resume_first original
                      (set_main_stack ambient w))|].
  destruct (init_stack_fresh (set_main_stack ambient w) w2 Hw Hinit)
    as (Ha2 & _ & s' & Hs' & Hreg).
  simpl in Hreg. split; [done|]. split; [congruence|].
  unfold init_stack in Hinit.
  destruct (_get_stack _) in Hinit; [|done]. by injection Hinit as <-.
Qed.
End Runs.

(** Attribution over a whole run: for a generator that respects the
    registry and emits through [Message.log] only, every message of a
    run, the generator's own and the wrapper's markers, is attributed to
    the stack that was current at the first resumption, whatever the
    ambient stack is replaced by before each resumption and whichever
    values or exceptions are sent in. *)
Theorem run_attribution (original : generator_function)
    (Hresp : respects original) (Hemits : emits_under_current original)
    (ambient : Stack) (ins : list (Stack * resume)) (w : World)
    (s : Stack) :
  handles_allocated w → _get_stack (set_main_stack ambient w) = Ok s →
  ∃ evs,
    messages (feed_ambient (wrapper_resume original)
                ((ambient, Send VNone) :: ins) NotStarted w).2
    = (messages w ++ evs)%list ∧
    Forall (λ ev : Event, ev.2 = s) evs.
Proof.
  intros Hw Hs. cbn [feed_ambient].
  destruct (first_resumption_registers original ambient w s Hw Hs)
    as (w2 & -> & Ha2 & Hreg2 & Hm2).
  destruct (iteration_emits original Hresp Hemits (next_handle w) s
              (gstart original) true VNone w2 Ha2 Hreg2)
    as (evs & Hevs & Hall).
  destruct (iteration_next original Hresp (next_handle w) s
              (gstart original) true VNone w2 Ha2 Hreg2)
    as (Ha & Hreg' & Hnext).
  destruct (iteration original _ _ _ _ w2) as [[o ws'] w'].
  simpl in *. rewrite Hm2 in Hevs.
  destruct o as [v| |]; simpl; try by exists evs.
  destruct (Hnext eq_refl) as [st' ->].
  destruct (run_attribution_parked original Hresp Hemits s ins
              (next_handle w) st' w' Ha Hreg') as (evs' & Hevs' & Hall').
  destruct (feed_ambient (wrapper_resume original) ins _ w')
    as [[os ws''] w''].
  simpl in *. exists (evs ++ evs')%list. split.
  - by rewrite Hevs', Hevs, app_assoc.
  - by apply Forall_app.
Qed.

(** The wrapper emits the markers and nothing else: for a generator that
    respects the registry and emits nothing, the messages after a run are
    those before it followed by one "yielded" message for each value the
    run yielded, each attributed to the stack that was current at the
    first resumption. *)
Theorem run_markers (original : generator_function)
    (Hresp : respects original) (Hsilent : silent original)
    (ambient : Stack) (ins : list (Stack * resume)) (w : World)
    (s : Stack) :
  handles_allocated w → _get_stack (set_main_stack ambient w) = Ok s →
  let res := feed_ambient (wrapper_resume original)
               ((ambient, Send VNone) :: ins) NotStarted w in
  messages res.2
  = (messages w ++ replicate (yields res.1.1) ("yielded", s))%list.
Proof.
  intros Hw Hs res. subst res. cbn [feed_ambient].
  destruct (first_resumption_registers original ambient w s Hw Hs)
    as (w2 & -> & Ha2 & Hreg2 & Hm2).
  pose proof (iteration_silent original Hresp Hsilent (next_handle w) s
                (gstart original) true VNone w2 Ha2 Hreg2) as Hmsg.
  destruct (iteration_next original Hresp (next_handle w) s
              (gstart original) true VNone w2 Ha2 Hreg2)
    as (Ha & Hreg' & Hnext).
  destruct (iteration original _ _ _ _ w2) as [[o ws'] w'].
  simpl in *. rewrite Hm2 in Hmsg.
  destruct o as [v| |]; simpl in *; [|done..].
  destruct (Hnext eq_refl) as [st' ->].
  pose proof (run_markers_parked original Hresp Hsilent s ins
                (next_handle w) st' w' Ha Hreg') as IH.
  destruct (feed_ambient (wrapper_resume original) ins _ w')
    as [[os ws''] w''].
  simpl in *. rewrite IH, Hmsg. unfold yields.
  by rewrite <- app_assoc.
Qed.

(** First resumption while the active slot names a generator that has no
    registered stack: the wrapper raises KeyError and is finished; the
    generator is not stepped, nothing is registered and no message is
    emitted. *)
Theorem first_resumption_unregistered (original : generator_function)
    (w : World) (h : handle) :
  _current_generator w = Some h → _contexts w !! h = None →
  let res := wrapper_resume original NotStarted (Send VNone) w in
  res.1 = (Raised KeyError, Finished) ∧
  _contexts res.2 = _contexts w ∧
  messages res.2 = messages w ∧
  _current_generator res.2 = Some h.
Proof.
  intros Hcur Hnone res. subst res. simpl.
  unfold init_stack, _get_stack, get_stack. simpl.
  by rewrite Hcur, Hnone.
Qed.

Lemma first_resumption_unregistered_witness :
  let w := mkWorld ∅ (Some 3) ["root"] [] 4 in
  let res := wrapper_resume scenario NotStarted (Send VNone) w in
  res.1 = (Raised KeyError, Finished) ∧
  _contexts res.2 = _contexts w ∧
  messages res.2 = messages w ∧
  _current_generator res.2 = Some 3.
Proof.
  intros w.
  apply (first_resumption_unregistered scenario w 3); reflexivity.
Defined.

Lemma scenario_emits : emits_under_current scenario.
Proof.
  intros pc r w s Hs. simpl.
  assert (∀ m o next,
            ∃ types : list string,
              messages (record_then m o next w).2
              = (messages w ++ ((λ m, (m, s)) <$> types))%list) as Hrec.
  { intros m o next. unfold record_then, Message_log. rewrite Hs.
    by exists [m]. }
  destruct pc, r; simpl; try apply Hrec;
    (exists []; simpl; by rewrite app_nil_r).
Qed.

Lemma countdown_respects (n : nat) : respects (countdown n).
Proof.
  intros st r w Hw. simpl.
  destruct r, st; simpl; (split; [done|apply frame_refl]).
Qed.

Lemma countdown_silent (n : nat) : silent (countdown n).
Proof. intros st r w. simpl. by destruct r, st. Qed.

Lemma run_attribution_witness :
  ∃ evs,
    messages (feed_ambient (wrapper_resume scenario)
                ((["root"], Send VNone)
                 :: [(["other"], Send (VInt 1)); (["third"], Send (VInt 2))])
                NotStarted (new_world ["before"])).2
    = (messages (new_world ["before"]) ++ evs)%list ∧
    Forall (λ ev : Event, ev.2 = ["root"]) evs.
Proof.
  apply (run_attribution scenario scenario_respects scenario_emits ["root"]
           [(["other"], Send (VInt 1)); (["third"], Send (VInt 2))]
           (new_world ["before"]) ["root"]).
  - apply new_world_well_formed.
  - reflexivity.
Defined.

Lemma run_markers_witness :
  let res := feed_ambient (wrapper_resume (countdown 2))
               ((["root"], Send VNone)
                :: [(["other"], Send VNone); (["third"], Send VNone)])
               NotStarted (new_world ["before"]) in
  messages res.2
  = (messages (new_world ["before"])
     ++ replicate (yields res.1.1) ("yielded", ["root"]))%list.
Proof.
  apply (run_markers (countdown 2) (countdown_respects 2)
           (countdown_silent 2) ["root"]
           [(["other"], Send VNone); (["third"], Send VNone)]
           (new_world ["before"]) ["root"]).
  - apply new_world_well_formed.
  - reflexivity.
Defined.

(** The run of the witness above, evaluated: two values, two markers. *)
Example countdown_run :
  let res := feed_ambient (wrapper_resume (countdown 2))
               [(["root"], Send VNone); (["other"], Send VNone);
                (["third"], Send VNone)]
               NotStarted (new_world ["before"]) in
  res.1.1 = [Yielded (VInt 2); Yielded (VInt 1); Completed VNone] ∧
  messages res.2 = [("yielded", ["root"]); ("yielded", ["root"])].
Proof. split; reflexivity. Qed.
